(** * Warping functions of GPy ([GPy/util/warping_functions.py])

    A shallow embedding of [TanhFunction] over the real numbers.  An [N x 1]
    numpy column is a [list R] (one real per row); the [T x 3] parameter
    array [psi] is a list of terms [(a, b, c)]; [np.tanh] and [np.cosh] are
    Stdlib's [tanh] and [cosh]. *)

From Stdlib Require Import Reals Lra Lia List ZArith.
From Stdlib Require String Ascii DecimalNat.
Import ListNotations.
Import (notations) String.
Import (notations) Ascii.
Open Scope R_scope.

(** ** Data model *)

(** One row [psi[i] = (a, b, c)] of the parameter array. *)
Record term := mk_term { ta : R; tb : R; tc : R }.

(** The parameters of a [TanhFunction]: [self.psi], [self.d] and the
    constructor's [initial_y]. *)
Record tanh_params := mk_params {
  psi : list term;
  d : R;
  initial_y : option (list R)
}.

(** [1.0 / np.cosh(s)] *)
Definition sech (s : R) : R := 1 / cosh s.

(** ** [TanhFunction.f] *)

(** One entry: [z = d * y; for i: z += a * tanh(b * (y + c))]. *)
Definition term_step (y : R) (z : R) (t : term) : R :=
  z + ta t * tanh (tb t * (y + tc t)).

Definition f_entry (p : tanh_params) (y : R) : R :=
  fold_left (term_step y) (psi p) (d p * y).

Definition f (p : tanh_params) (y : list R) : list R := map (f_entry p) y.

(** ** [TanhFunction.fgrad_y] *)

(** [S = (mpsi[:,1] * (y[:,:,None] + mpsi[:,2])).T], stored as [S[i][n]]. *)
Definition fgrad_S (p : tanh_params) (y : list R) : list (list R) :=
  map (fun t => map (fun yn => tb t * (yn + tc t)) y) (psi p).

(** [R = np.tanh(S)] *)
Definition fgrad_R (p : tanh_params) (y : list R) : list (list R) :=
  map (map tanh) (fgrad_S p y).

(** [D = 1 - R ** 2] *)
Definition fgrad_D (p : tanh_params) (y : list R) : list (list R) :=
  map (map (fun r => 1 - r ^ 2)) (fgrad_R p y).

(** [(a * b * D).sum(axis=0)] for one row [n]: the terms summed in order. *)
Definition sum_terms (ts : list term) (Dn : list R) : R :=
  fold_left Rplus (map (fun '(t, x) => ta t * tb t * x) (combine ts Dn)) 0.

(** Column [n] of a [T x N] tensor. *)
Definition col (M : list (list R)) (n : nat) : list R :=
  map (fun row => nth n row 0) M.

(** [GRAD = (d + (a * b * D).sum(axis=0)).T] *)
Definition fgrad_y (p : tanh_params) (y : list R) : list R :=
  let D := fgrad_D p y in
  map (fun n => d p + sum_terms (psi p) (col D n)) (seq 0 (length y)).

(** The parameter set is valid: every [a_i, b_i > 0] and [d > 0]. *)
Definition pos_term (t : term) : Prop := 0 < ta t /\ 0 < tb t.

Definition valid (p : tanh_params) : Prop := 0 < d p /\ Forall pos_term (psi p).

(** ** Exceptions and numpy broadcasting *)

(** The exceptions numpy raises on the paths modelled here. *)
Inductive exn := ValueError | IndexError.

Definition result (A : Type) : Type := (exn + A)%type.

Notation "'let*' x ':=' m 'in' k" :=
  (match m with inl e => inl e | inr x => k end)
  (at level 200, x name, m at level 100, k at level 200).

Fixpoint zip_with (g : R -> R -> R) (u v : list R) : list R :=
  match u, v with
  | x :: u', y :: v' => g x y :: zip_with g u' v'
  | _, _ => []
  end.

(** A binary numpy operation on two [N x 1] columns: equal lengths act
    entrywise, a column of length 1 is broadcast, anything else raises. *)
Definition bcast (g : R -> R -> R) (u v : list R) : result (list R) :=
  if Nat.eqb (length u) (length v) then inr (zip_with g u v)
  else if Nat.eqb (length u) 1 then inr (map (g (hd 0 u)) v)
  else if Nat.eqb (length v) 1 then inr (map (fun x => g x (hd 0 v)) u)
  else inl ValueError.

(** An in-place operation [y op= v]: the broadcast result must keep the
    shape of [y]. *)
Definition inplace (g : R -> R -> R) (y v : list R) : result (list R) :=
  let* r := bcast g y v in
  if Nat.eqb (length r) (length y) then inr r else inl ValueError.

(** [np.abs(update).sum()] and [np.sum(update)] *)
Definition sum_abs (u : list R) : R := fold_left Rplus (map Rabs u) 0.

Definition np_sum (u : list R) : R := fold_left Rplus u 0.

(** The tolerance [1e-10]. *)
Definition tol : R := 1 / 10 ^ 10.

(** ** Objects: a store of arrays *)

(** Arrays are objects: [f_inv] receives [z] and [y] by reference and
    mutates [y] in place, so arrays live in a store. *)
Definition loc := nat.

Record heap := mk_heap { cells : loc -> list R; next_loc : loc }.

Definition read (h : heap) (l : loc) : list R := cells h l.

Definition write (h : heap) (l : loc) (v : list R) : heap :=
  mk_heap (fun l' => if Nat.eqb l' l then v else cells h l') (next_loc h).

(** A new array object. *)
Definition alloc (h : heap) (v : list R) : loc * heap :=
  (next_loc h,
   mk_heap (fun l' => if Nat.eqb l' (next_loc h) then v else cells h l')
           (S (next_loc h))).

(** ** [TanhFunction.f_inv] *)

(** The value of [update]: [np.inf] before the first iteration, then an
    array. *)
Inductive upd_val := UInf | UArr (u : list R).

(** [np.abs(update).sum() > 1e-10] *)
Definition upd_gt_tol (u : upd_val) : bool :=
  match u with
  | UInf => true
  | UArr v => if Rlt_dec tol (sum_abs v) then true else false
  end.

(** What [f_inv] prints: the warning line, then ["Sum of updates: %.4f"]
    of [np.sum(update)]; the event carries [update] itself. *)
Inductive event := Print_max_iter | Print_sum_updates (u : upd_val).

(** Initial guess when no [y] is given:
    [y = ((z > 0) * 1.) - (z <= 0)], then [y *= self.initial_y]. *)
Definition init_guess (p : tanh_params) (zc : list R) : result (list R) :=
  let y := map (fun zi => (if Rlt_dec 0 zi then 1 else 0)
                          - (if Rle_dec zi 0 then 1 else 0)) zc in
  match initial_y p with
  | None => inr y
  | Some iy => inplace Rmult y iy
  end.

(** The loop body on values: [fy = self.f(y); fgrady = self.fgrad_y(y);
    update = (fy - z) / fgrady; y -= update].  Stdlib's [Rdiv] by zero
    gives 0 where numpy gives [inf]/[nan]; the Jacobian is positive for
    valid parameters. *)
Definition nr_step (p : tanh_params) (zc yv : list R) : result (list R * list R) :=
  let fy := f p yv in
  let fgrady := fgrad_y p yv in
  let* diff := bcast Rminus fy zc in
  let* update := bcast Rdiv diff fgrady in
  let* y' := inplace Rminus yv update in
  inr (y', update).

Record nr_state := mk_state {
  st_heap : heap;
  st_it : Z;
  st_update : upd_val
}.

(** [it == 0 or (np.abs(update).sum() > 1e-10 and it < max_iterations)] *)
Definition continue_cond (maxit it : Z) (u : upd_val) : bool :=
  Z.eqb it 0 || (upd_gt_tol u && Z.ltb it maxit).

Definition loop_cond (maxit : Z) (st : nr_state) : bool :=
  continue_cond maxit (st_it st) (st_update st).

(** One pass of the loop body: [y] is read from and written back to its
    array object; [it += 1]. *)
Definition nr_body (p : tanh_params) (zc : list R) (yl : loc) (st : nr_state)
  : result nr_state :=
  let* r := nr_step p zc (read (st_heap st) yl) in
  inr (mk_state (write (st_heap st) yl (fst r)) (st_it st + 1) (UArr (snd r))).

(** The [while] loop, run on [fuel] condition checks ([None]: fuel out). *)
Fixpoint nr_loop (p : tanh_params) (zc : list R) (yl : loc) (maxit : Z)
  (fuel : nat) (st : nr_state) : option (result nr_state) :=
  match fuel with
  | O => None
  | S fuel' =>
      if loop_cond maxit st then
        match nr_body p zc yl st with
        | inl e => Some (inl e)
        | inr st' => nr_loop p zc yl maxit fuel' st'
        end
      else Some (inr st)
  end.

(** Everything of [f_inv] up to the final warning: [z = z.copy()], the
    initial guess (a new array) unless the caller passed [y], and the loop
    (at most [max(1, max_iterations)] passes, so [max_iterations + 2]
    checks suffice).  Returns the array [y] and the final loop state. *)
Definition f_inv_run (p : tanh_params) (h : heap) (zl : loc) (maxit : Z)
  (yarg : option loc) : option (result (loc * nr_state)) :=
  let zc := read h zl in
  let start h0 yl :=
    match nr_loop p zc yl maxit (Z.to_nat maxit + 2) (mk_state h0 0 UInf) with
    | None => None
    | Some (inl e) => Some (inl e)
    | Some (inr st) => Some (inr (yl, st))
    end in
  match yarg with
  | None =>
      match init_guess p zc with
      | inl e => Some (inl e)
      | inr y0 => let (yl, h1) := alloc h y0 in start h1 yl
      end
  | Some yl => start h yl
  end.

(** [if it == max_iterations: print(...); print(...)] *)
Definition final_log (maxit : Z) (st : nr_state) : list event :=
  if Z.eqb (st_it st) maxit then [Print_max_iter; Print_sum_updates (st_update st)]
  else [].

(** [TanhFunction.f_inv(z, max_iterations, y)]: the final store, the array
    returned and the lines printed. *)
Definition f_inv (p : tanh_params) (h : heap) (zl : loc) (maxit : Z)
  (yarg : option loc) : option (result (heap * loc * list event)) :=
  match f_inv_run p h zl maxit yarg with
  | None => None
  | Some (inl e) => Some (inl e)
  | Some (inr (yl, st)) => Some (inr (st_heap st, yl, final_log maxit st))
  end.

(** The sequence of Newton iterates on values: [(y_j, update_j)]. *)
Fixpoint nr_traj (p : tanh_params) (zc y0 : list R) (j : nat)
  : result (list R * upd_val) :=
  match j with
  | O => inr (y0, UInf)
  | S j' =>
      let* prev := nr_traj p zc y0 j' in
      let* r := nr_step p zc (fst prev) in
      inr (fst r, UArr (snd r))
  end.

(** ** [TanhFunction.fgrad_y_psi] *)

(** The four parameter columns [(a, b, c, d)] of one [(n, i)] entry. *)
Record quad := mk_quad { qa : R; qb : R; qc : R; qd : R }.

Definition q0 : quad := mk_quad 0 0 0 0.

(** An [N x 1 x T x 4] tensor as rows [n] of [T] quads. *)
Definition tensor := list (list quad).

Definition term0 : term := mk_term 0 0 0.

(** [np.zeros((N, 1, T, 4))] filled by [gradients[:, :, i, k] = ...]. *)
Definition build_tensor (T N : nat) (entry : nat -> nat -> quad) : tensor :=
  map (fun n => map (fun i => entry n i) (seq 0 T)) (seq 0 N).

(** [gradients[:, :, i, 0..2]] from [s[i]], [r[i]], [d[i]] at row [n]. *)
Definition grad_quad (t : term) (s r Dv : R) : quad :=
  mk_quad (tb t * sech s ^ 2)
          (ta t * (Dv - 2 * s * r * sech s ^ 2))
          (- 2 * ta t * tb t ^ 2 * r * sech s ^ 2)
          0.

(** [covar_grad_chain[:, :, i, 0..2]] at row [n]. *)
Definition chain_quad (t : term) (yn s r : R) : quad :=
  mk_quad r (ta t * (yn + tc t) * sech s ^ 2) (ta t * tb t * sech s ^ 2) 0.

Definition with_qd (q : quad) (v : R) : quad := mk_quad (qa q) (qb q) (qc q) v.

(** [X[:, :, 0, 3] = v]: raises when there is no term [0]. *)
Definition set_d_col0 (T : nat) (G : tensor) (vals : list R) : result tensor :=
  if Nat.eqb T 0 then inl IndexError
  else inr (map (fun '(row, v) =>
                   match row with
                   | q :: rest => with_qd q v :: rest
                   | [] => []
                   end) (combine G vals)).

Inductive psi_out := Grads (g : tensor) | GradsChain (g c : tensor).

Definition fgrad_y_psi (p : tanh_params) (y : list R) (return_covar_chain : bool)
  : result psi_out :=
  let S := fgrad_S p y in
  let Rm := fgrad_R p y in
  let D := fgrad_D p y in
  let T := length (psi p) in
  let N := length y in
  let at_ M i n := nth n (nth i M []) 0 in
  let* g := set_d_col0 T
              (build_tensor T N (fun n i =>
                 grad_quad (nth i (psi p) term0) (at_ S i n) (at_ Rm i n) (at_ D i n)))
              (repeat 1 N) in
  if return_covar_chain then
    let* c := set_d_col0 T
                (build_tensor T N (fun n i =>
                   chain_quad (nth i (psi p) term0) (nth n y 0) (at_ S i n) (at_ Rm i n)))
                y in
    inr (GradsChain g c)
  else inr (Grads g).

(** ** [TanhFunction.update_grads] *)

(** The object: its parameters and the gradient buffers [psi.gradient]
    ([T x 3]) and [d.gradient]. *)
Record warp_state := mk_warp {
  wparams : tanh_params;
  psi_grad : list (R * R * R);
  d_grad : R
}.

Definition qadd (x y : quad) : quad :=
  mk_quad (qa x + qa y) (qb x + qb y) (qc x + qc y) (qd x + qd y).

Definition qscale (k : R) (x : quad) : quad :=
  mk_quad (k * qa x) (k * qb x) (k * qc x) (k * qd x).

Definition qneg (x : quad) : quad := mk_quad (- qa x) (- qb x) (- qc x) (- qd x).

Fixpoint qzip (g : quad -> quad -> quad) (u v : list quad) : list quad :=
  match u, v with
  | x :: u', y :: v' => g x y :: qzip g u' v'
  | _, _ => []
  end.

(** [X.sum(axis=0).sum(axis=0)] of an [N x 1 x T x 4] tensor. *)
Definition sum_rows (T : nat) (X : tensor) : list quad :=
  fold_left (qzip qadd) X (repeat q0 T).

(** [Kiy[:, None, None, None] * grad_psi] with numpy broadcasting on the
    first axis. *)
Definition kiy_scale (Kiy : list R) (X : tensor) : result tensor :=
  if Nat.eqb (length Kiy) (length X) then
    inr (map (fun '(k, row) => map (qscale k) row) (combine Kiy X))
  else if Nat.eqb (length Kiy) 1 then inr (map (map (qscale (hd 0 Kiy))) X)
  else if Nat.eqb (length X) 1 then inr (map (fun k => map (qscale k) (hd [] X)) Kiy)
  else inl ValueError.

Definition update_grads (w : warp_state) (Y Kiy : list R) : result warp_state :=
  let p := wparams w in
  let T := length (psi p) in
  let grad_y := fgrad_y p Y in
  let* out := fgrad_y_psi p Y true in
  match out with
  | Grads _ => inl ValueError
  | GradsChain grad_y_psi grad_psi =>
      let djac := sum_rows T (map (fun '(g, row) => map (qscale (1 / g)) row)
                                  (combine grad_y grad_y_psi)) in
      let* scaled := kiy_scale Kiy grad_psi in
      let dquad := sum_rows T scaled in
      let warping_grads := qzip (fun q j => qadd (qneg q) j) dquad djac in
      inr (mk_warp p
             (map (fun q => (qa q, qb q, qc q)) warping_grads)
             (qd (nth 0 warping_grads q0)))
  end.

(** ** [TanhFunction.__init__] *)

(** [self.psi = np.ones((n_terms, 3))], [self.d = 1.0]; a negative
    [n_terms] makes [np.ones] raise, and with [n_terms = 0]
    [self.psi[:, :2].constrain_positive()] raises [ValueError] on the empty
    parameter. *)
Definition TanhFunction_init (n_terms : Z) (iy : option (list R)) : result tanh_params :=
  if Z.leb n_terms 0 then inl ValueError
  else inr (mk_params (repeat (mk_term 1 1 1) (Z.to_nat n_terms)) 1 iy).

(** ** The spec's formulas, entry by entry *)

(** [f]'s derivative at one entry, [d + Sum_i a_i b_i (1 - tanh(S_i)^2)]. *)
Definition jacobian_entry (p : tanh_params) (y : R) : R :=
  d p + sum_terms (psi p) (map (fun t => 1 - tanh (tb t * (y + tc t)) ^ 2) (psi p)).

(** Sum of [a_i * b_i] over the terms. *)
Definition sum_ab (p : tanh_params) : R :=
  fold_left Rplus (map (fun t => ta t * tb t) (psi p)) 0.

(** Sum of [|a_i|] over the terms. *)
Definition sum_abs_a (p : tanh_params) : R :=
  fold_left (fun s t => s + Rabs (ta t)) (psi p) 0.

(** The entries the spec gives for [fgrad_y_psi] (section 4.5). *)
Definition spec_grad_entry (t : term) (i : nat) (yn : R) : quad :=
  let S := tb t * (yn + tc t) in
  let Rv := tanh S in
  let Dv := 1 - Rv ^ 2 in
  mk_quad (tb t * sech S ^ 2)
          (ta t * (Dv - 2 * S * Rv * sech S ^ 2))
          (- 2 * ta t * tb t ^ 2 * Rv * sech S ^ 2)
          (if Nat.eqb i 0 then 1 else 0).

Definition spec_chain_entry (t : term) (i : nat) (yn : R) : quad :=
  let S := tb t * (yn + tc t) in
  mk_quad (tanh S)
          (ta t * (yn + tc t) * sech S ^ 2)
          (ta t * tb t * sech S ^ 2)
          (if Nat.eqb i 0 then yn else 0).

(** A tensor has the given entries at every [(n, i)]. *)
Definition tensor_is (p : tanh_params) (y : list R) (entry : term -> nat -> R -> quad)
  (G : tensor) : Prop :=
  length G = length y /\
  forall n, (n < length y)%nat ->
    length (nth n G []) = length (psi p) /\
    forall i t, nth_error (psi p) i = Some t ->
      nth i (nth n G []) q0 = entry t i (nth n y 0).

(** [Sum_{n < N} g n] *)
Definition sum_n (N : nat) (g : nat -> R) : R := fold_right Rplus 0 (map g (seq 0 N)).

Definition psi_out_spec (p : tanh_params) (y : list R) (chain : bool) (out : psi_out) : Prop :=
  match out with
  | Grads G => chain = false /\ tensor_is p y spec_grad_entry G
  | GradsChain G C =>
      chain = true /\ tensor_is p y spec_grad_entry G /\ tensor_is p y spec_chain_entry C
  end.

(** The spec's [total = jacobian_grad - quadratic_grad] at term [i], one
    column [sel] (section 4.6). *)
Definition total_col (sel : quad -> R) (p : tanh_params) (Y Kiy : list R) (i : nat) : R :=
  let t := nth i (psi p) term0 in
  sum_n (length Y) (fun n =>
    1 / jacobian_entry p (nth n Y 0) * sel (spec_grad_entry t i (nth n Y 0)))
  - sum_n (length Y) (fun n => nth n Kiy 0 * sel (spec_chain_entry t i (nth n Y 0))).

(** The loop state after [j] passes, started from [y0] in the array [yl]
    of the store [h0]. *)
Definition loop_inv (p : tanh_params) (zc y0 : list R) (yl : loc) (h0 : heap)
  (j : nat) (st : nr_state) : Prop :=
  st_it st = Z.of_nat j /\
  nr_traj p zc y0 j = inr (read (st_heap st) yl, st_update st) /\
  length (read (st_heap st) yl) = length zc /\
  next_loc (st_heap st) = next_loc h0 /\
  (forall l, l <> yl -> read (st_heap st) l = read h0 l).

(** The loop condition holds after [j] passes. *)
Definition cond_at (p : tanh_params) (zc y0 : list R) (maxit : Z) (j : nat) : Prop :=
  exists y u, nr_traj p zc y0 j = inr (y, u) /\ continue_cond maxit (Z.of_nat j) u = true.

(** ** Concrete inputs *)

(** A store whose array [0] holds [v]. *)
Definition heap1 (v : list R) : heap :=
  mk_heap (fun l => if Nat.eqb l 0 then v else []) 1%nat.

(** One term [a = b = 1], [c = -1] ([S = 0] at [y = 1]), [d = 1]. *)
Definition p_edge : tanh_params := mk_params [mk_term 1 1 (-1)] 1 None.

(** One term [a = b = 1], [c = 0], [d = 1]. *)
Definition p_unit : tanh_params := mk_params [mk_term 1 1 0] 1 None.

(** One steep term [a = 1], [b = 10^11], [c = -1], [d = 1]. *)
Definition p_steep : tanh_params := mk_params [mk_term 1 (10 ^ 11) (-1)] 1 None.


(** One term [a = b = 1], [c = -1], [d = 9765624]: at [y = 1] the value is
    [d] and the Jacobian [d + 1 = 5^10]. *)
Definition p_bound : tanh_params := mk_params [mk_term 1 1 (-1)] 9765624 None.

(** The Newton iterates of [p_unit] on [z = 0] from [y = -1], on values. *)
Fixpoint unit_iter (m : nat) : R :=
  match m with
  | O => -1
  | S m' => unit_iter m' - (f_entry p_unit (unit_iter m') - 0) / jacobian_entry p_unit (unit_iter m')
  end.

(** ** Moving one parameter

    To read [fgrad_y_psi]'s columns as partial derivatives, a single
    parameter of the object is moved: row [i] of [psi], or [d]. *)

(** [l[i] = x] on a copy; out of range nothing changes. *)
Fixpoint replace_nth {A : Type} (i : nat) (x : A) (l : list A) : list A :=
  match l, i with
  | [], _ => []
  | _ :: l', O => x :: l'
  | y :: l', S i' => y :: replace_nth i' x l'
  end.

Definition set_term (p : tanh_params) (i : nat) (t : term) : tanh_params :=
  mk_params (replace_nth i t (psi p)) (d p) (initial_y p).

Definition set_d (p : tanh_params) (v : R) : tanh_params :=
  mk_params (psi p) v (initial_y p).

(** ** [LogFunction]

    [f = np.log], [fgrad_y = 1. / y], [f_inv = np.exp], entrywise.  numpy
    gives [nan] or [-inf] for [log] of a non-positive entry, Stdlib's [ln]
    some real; the properties below are stated on positive entries. *)
Definition log_f (y : list R) : list R := map ln y.

Definition log_fgrad_y (y : list R) : list R := map (fun x => 1 / x) y.

Definition log_f_inv (z : list R) : list R := map exp z.

(** A store whose arrays [0] and [1] hold [v] and [w]. *)
Definition heap2 (v w : list R) : heap :=
  mk_heap (fun l => if Nat.eqb l 0 then v else if Nat.eqb l 1 then w else []) 2%nat.

(** ** [TanhFunction._get_param_names] *)

(** Python's [%i] of a non-negative [int]: its decimal digits. *)
Fixpoint uint_str (u : Decimal.uint) : String.string :=
  match u with
  | Decimal.Nil => String.EmptyString
  | Decimal.D0 u => String.String "0"%char (uint_str u)
  | Decimal.D1 u => String.String "1"%char (uint_str u)
  | Decimal.D2 u => String.String "2"%char (uint_str u)
  | Decimal.D3 u => String.String "3"%char (uint_str u)
  | Decimal.D4 u => String.String "4"%char (uint_str u)
  | Decimal.D5 u => String.String "5"%char (uint_str u)
  | Decimal.D6 u => String.String "6"%char (uint_str u)
  | Decimal.D7 u => String.String "7"%char (uint_str u)
  | Decimal.D8 u => String.String "8"%char (uint_str u)
  | Decimal.D9 u => String.String "9"%char (uint_str u)
  end.

Definition fmt_i (q : nat) : String.string := uint_str (Nat.to_uint q).

(** [variables = ['a', 'b', 'c', 'd']] *)
Definition variables : list String.string :=
  ["a"%string; "b"%string; "c"%string; "d"%string].

(** ['warp_tanh_%s_t%i' % (variables[n], q)] *)
Definition param_name (n q : nat) : String.string :=
  String.append "warp_tanh_"
    (String.append (nth n variables String.EmptyString) (String.append "_t" (fmt_i q))).

(** [names = sum([[...] for n in range(3)] for q in range(self.n_terms)], [])],
    then [names.append('warp_tanh')]. *)
Definition get_param_names (n_terms : Z) : list String.string :=
  fold_left (@app String.string)
    (map (fun q => map (fun n => param_name n q) (seq 0 3)) (seq 0 (Z.to_nat n_terms))) []
  ++ ["warp_tanh"%string].

(** [self.num_parameters = 3 * self.n_terms + 1] *)
Definition num_parameters (n_terms : Z) : Z := 3 * n_terms + 1.

(** ** Facts about [tanh] *)

Lemma cosh_pos (x : R) : 0 < cosh x.
Proof.
  unfold cosh. pose proof (exp_pos x). pose proof (exp_pos (- x)). lra.
Qed.

Lemma tanh_alt (x : R) : tanh x = 1 - 2 / (exp (2 * x) + 1).
Proof.
  unfold tanh, sinh, cosh.
  replace (2 * x) with (x + x) by ring. rewrite exp_plus, exp_Ropp.
  pose proof (exp_pos x).
  field. split; nra.
Qed.

Lemma tanh_lt (x y : R) : x < y -> tanh x < tanh y.
Proof.
  intros Hxy. rewrite !tanh_alt.
  assert (Hexp : exp (2 * x) < exp (2 * y)) by (apply exp_increasing; lra).
  pose proof (exp_pos (2 * x)).
  assert (2 / (exp (2 * y) + 1) < 2 / (exp (2 * x) + 1)); [| lra].
  unfold Rdiv. apply Rmult_lt_compat_l; [lra |].
  apply Rinv_lt_contravar; nra.
Qed.

Lemma tanh_bounds (x : R) : -1 < tanh x < 1.
Proof.
  rewrite tanh_alt. pose proof (exp_pos (2 * x)).
  assert (0 < 2 / (exp (2 * x) + 1)) by (apply Rdiv_lt_0_compat; lra).
  assert (2 / (exp (2 * x) + 1) < 2); [| lra].
  apply (Rmult_lt_reg_r (exp (2 * x) + 1)); [lra |].
  unfold Rdiv. rewrite Rmult_assoc, Rinv_l by lra. lra.
Qed.

Lemma tanh_0 : tanh 0 = 0.
Proof. unfold tanh, sinh. rewrite Ropp_0. unfold Rdiv. ring. Qed.

Lemma tanh_opp (x : R) : tanh (- x) = - tanh x.
Proof.
  unfold tanh, sinh, cosh. rewrite Ropp_involutive.
  pose proof (cosh_pos x) as H. unfold cosh in H.
  field. lra.
Qed.

(** [1 - tanh(s)^2 = sech(s)^2] *)
Lemma one_minus_tanh2 (s : R) : 1 - tanh s ^ 2 = sech s ^ 2.
Proof.
  unfold sech, tanh, sinh. pose proof (cosh_pos s) as Hc.
  assert (Hprod : exp s * exp (- s) = 1).
  { rewrite <- exp_plus. replace (s + - s) with 0 by ring. apply exp_0. }
  assert (Hsq : cosh s ^ 2 - ((exp s - exp (- s)) / 2) ^ 2 = 1).
  { unfold cosh. field_simplify. nra. }
  replace ((1 / cosh s) ^ 2)
    with ((cosh s ^ 2 - ((exp s - exp (- s)) / 2) ^ 2) / cosh s ^ 2)
    by (rewrite Hsq; field; lra).
  field. lra.
Qed.

Lemma D_entry_pos (s : R) : 0 < 1 - tanh s ^ 2.
Proof. pose proof (tanh_bounds s). nra. Qed.

Lemma tanh_le (x y : R) : x <= y -> tanh x <= tanh y.
Proof.
  intros [H | H]; [left; now apply tanh_lt | right; now subst].
Qed.

(** ** Monotonicity of [f] *)

Lemma fold_terms_slope (ts : list term) (acc1 acc2 y1 y2 : R) :
  Forall pos_term ts -> y1 <= y2 ->
  acc2 - acc1 <= fold_left (term_step y2) ts acc2 - fold_left (term_step y1) ts acc1.
Proof.
  intros Hts Hy. revert acc1 acc2.
  induction Hts as [| t ts [Ha Hb] Hts IH]; intros acc1 acc2; simpl; [lra |].
  specialize (IH (term_step y1 acc1 t) (term_step y2 acc2 t)).
  unfold term_step in *.
  assert (tanh (tb t * (y1 + tc t)) <= tanh (tb t * (y2 + tc t)))
    by (apply tanh_le; nra).
  nra.
Qed.

(** [f] grows at least with slope [d]. *)
Lemma f_entry_slope (p : tanh_params) (y1 y2 : R) :
  valid p -> y1 <= y2 -> d p * (y2 - y1) <= f_entry p y2 - f_entry p y1.
Proof.
  intros [Hd Hts] Hy. unfold f_entry.
  pose proof (fold_terms_slope (psi p) (d p * y1) (d p * y2) y1 y2 Hts Hy). lra.
Qed.

Lemma f_entry_lt (p : tanh_params) (y1 y2 : R) :
  valid p -> y1 < y2 -> f_entry p y1 < f_entry p y2.
Proof.
  intros Hv Hy. pose proof (f_entry_slope p y1 y2 Hv (Rlt_le _ _ Hy)).
  destruct Hv as [Hd _]. nra.
Qed.

(** ** Positivity of [fgrad_y] *)

Lemma col_D_nonneg (p : tanh_params) (y : list R) (n : nat) :
  Forall (fun x => 0 <= x) (col (fgrad_D p y) n).
Proof.
  unfold col, fgrad_D, fgrad_R. apply Forall_forall. intros x Hx.
  apply in_map_iff in Hx as [row [<- Hrow]].
  apply in_map_iff in Hrow as [rrow [<- Hrrow]].
  apply in_map_iff in Hrrow as [srow [<- _]].
  destruct (lt_dec n (length srow)) as [Hn | Hn].
  - assert (Hin : In (nth n (map (fun r => 1 - r ^ 2) (map tanh srow)) 0)
                      (map (fun r => 1 - r ^ 2) (map tanh srow)))
      by (apply nth_In; rewrite !length_map; lia).
    apply in_map_iff in Hin as [r [Hr Hin]]. rewrite <- Hr.
    apply in_map_iff in Hin as [s [<- _]]. left. apply D_entry_pos.
  - rewrite nth_overflow by (rewrite !length_map; lia). lra.
Qed.

Lemma fold_Rplus_nonneg (l : list R) (acc : R) :
  0 <= acc -> Forall (fun x => 0 <= x) l -> 0 <= fold_left Rplus l acc.
Proof.
  intros Hacc Hl. revert acc Hacc.
  induction Hl as [| x l Hx Hl IH]; intros acc Hacc; simpl; [exact Hacc |].
  apply IH. lra.
Qed.

Lemma sum_terms_nonneg (ts : list term) (Dn : list R) :
  Forall pos_term ts -> Forall (fun x => 0 <= x) Dn -> 0 <= sum_terms ts Dn.
Proof.
  intros Hts HD. unfold sum_terms. apply fold_Rplus_nonneg; [lra |].
  apply Forall_forall. intros v Hv.
  apply in_map_iff in Hv as [[t x] [<- Hin]].
  pose proof (in_combine_l _ _ _ _ Hin) as Ht.
  pose proof (in_combine_r _ _ _ _ Hin) as Hx.
  rewrite Forall_forall in Hts, HD.
  destruct (Hts t Ht) as [Ha Hb]. specialize (HD x Hx).
  apply Rmult_le_pos; [nra | exact HD].
Qed.

Lemma sum_terms_pos_jac (p : tanh_params) (Dn : list R) :
  valid p -> Forall (fun x => 0 <= x) Dn -> 0 < d p + sum_terms (psi p) Dn.
Proof.
  intros [Hd Hts] HD. pose proof (sum_terms_nonneg _ _ Hts HD). lra.
Qed.

(** ** Claims on [f] and [fgrad_y] *)

(** C2: for valid parameters, [f] is strictly increasing in each entry:
    entrywise [y1 < y2] gives entrywise [f(y1) < f(y2)] (in particular for
    scalars, i.e. one-entry columns). *)
Theorem f_strictly_increasing (p : tanh_params) (ys1 ys2 : list R) :
  valid p -> Forall2 Rlt ys1 ys2 -> Forall2 Rlt (f p ys1) (f p ys2).
Proof.
  intros Hv H12. unfold f.
  induction H12 as [| y1 y2 ys1 ys2 Hy _ IH]; simpl; constructor; auto.
  now apply f_entry_lt.
Qed.

Lemma f_strictly_increasing_witness :
  valid (mk_params [mk_term 1 1 0] 1 None) /\
  Forall2 Rlt (f (mk_params [mk_term 1 1 0] 1 None) [0])
              (f (mk_params [mk_term 1 1 0] 1 None) [1]).
Proof.
  assert (Hv : valid (mk_params [mk_term 1 1 0] 1 None)).
  { split; simpl; [lra | repeat constructor; simpl; lra]. }
  split; [exact Hv |].
  apply (f_strictly_increasing _ [0] [1] Hv). repeat constructor. lra.
Defined.

(** C3: for valid parameters, every entry of [fgrad_y] is strictly
    positive. *)
Theorem fgrad_y_pos (p : tanh_params) (y : list R) :
  valid p -> Forall (fun g => 0 < g) (fgrad_y p y).
Proof.
  intros Hv. unfold fgrad_y. apply Forall_forall. intros g Hg.
  apply in_map_iff in Hg as [n [<- _]].
  apply sum_terms_pos_jac; [exact Hv | apply col_D_nonneg].
Qed.

Lemma fgrad_y_pos_witness :
  valid (mk_params [mk_term 1 1 0] 1 None) /\
  Forall (fun g => 0 < g) (fgrad_y (mk_params [mk_term 1 1 0] 1 None) [0; 5]).
Proof.
  assert (Hv : valid (mk_params [mk_term 1 1 0] 1 None)).
  { split; simpl; [lra | repeat constructor; simpl; lra]. }
  split; [exact Hv | apply (fgrad_y_pos _ [0; 5] Hv)].
Defined.

(** ** The tensors of [fgrad_y_psi] *)

Lemma nth_map_lt {A B : Type} (g : A -> B) (l : list A) (i : nat) (dA : A) (dB : B) :
  (i < length l)%nat -> nth i (map g l) dB = g (nth i l dA).
Proof.
  intros Hi. rewrite nth_indep with (d' := g dA) by (rewrite length_map; lia).
  apply map_nth.
Qed.

Lemma nth_seq_lt (i a n : nat) : (i < n)%nat -> nth i (seq a n) 0%nat = (a + i)%nat.
Proof. apply seq_nth. Qed.

Section Precalc.
Variable p : tanh_params.
Variable y : list R.
Variables i n : nat.
Hypothesis Hi : (i < length (psi p))%nat.
Hypothesis Hn : (n < length y)%nat.

Let t := nth i (psi p) term0.
Let s := tb t * (nth n y 0 + tc t).

Lemma S_at : nth n (nth i (fgrad_S p y) []) 0 = s.
Proof.
  unfold fgrad_S. rewrite (nth_map_lt _ _ _ term0) by exact Hi.
  rewrite (nth_map_lt _ _ _ 0) by exact Hn. reflexivity.
Qed.

Lemma R_at : nth n (nth i (fgrad_R p y) []) 0 = tanh s.
Proof.
  unfold fgrad_R. rewrite (nth_map_lt _ _ _ []).
  2:{ unfold fgrad_S. rewrite length_map. exact Hi. }
  rewrite (nth_map_lt _ _ _ 0).
  2:{ unfold fgrad_S. rewrite (nth_map_lt _ _ _ term0) by exact Hi.
      rewrite length_map. exact Hn. }
  now rewrite S_at.
Qed.

Lemma D_at : nth n (nth i (fgrad_D p y) []) 0 = 1 - tanh s ^ 2.
Proof.
  unfold fgrad_D. rewrite (nth_map_lt _ _ _ []).
  2:{ unfold fgrad_R, fgrad_S. rewrite !length_map. exact Hi. }
  rewrite (nth_map_lt _ _ _ 0).
  2:{ unfold fgrad_R, fgrad_S. rewrite (nth_map_lt _ _ _ []) by (rewrite length_map; exact Hi).
      rewrite (nth_map_lt _ _ _ term0) by exact Hi. rewrite !length_map. exact Hn. }
  now rewrite R_at.
Qed.
End Precalc.

Lemma set_build_length (T N : nat) (entry : nat -> nat -> quad) (vals : list R) G :
  length vals = N -> set_d_col0 T (build_tensor T N entry) vals = inr G ->
  length G = N /\ forall n, (n < N)%nat -> length (nth n G []) = T.
Proof.
  intros Hv HG. unfold set_d_col0 in HG. destruct (Nat.eqb_spec T 0) as [_ | HT]; [discriminate |].
  injection HG as <-. unfold build_tensor.
  split.
  - rewrite length_map, length_combine, length_map, length_seq. lia.
  - intros n Hn.
    rewrite (nth_map_lt _ _ _ ([], 0)) by (rewrite length_combine, length_map, length_seq; lia).
    rewrite combine_nth by (rewrite length_map, length_seq; lia).
    rewrite (nth_map_lt _ _ _ 0%nat) by (rewrite length_seq; lia).
    rewrite nth_seq_lt by lia.
    destruct T as [| T]; [lia |]. simpl. rewrite length_map, length_seq. reflexivity.
Qed.

Lemma set_build_nth (T N : nat) (entry : nat -> nat -> quad) (vals : list R) G n i :
  length vals = N -> set_d_col0 T (build_tensor T N entry) vals = inr G ->
  (n < N)%nat -> (i < T)%nat ->
  nth i (nth n G []) q0 =
    if Nat.eqb i 0 then with_qd (entry n 0%nat) (nth n vals 0) else entry n i.
Proof.
  intros Hv HG Hn Hi. unfold set_d_col0 in HG. destruct (Nat.eqb_spec T 0) as [HT | HT]; [lia |].
  injection HG as <-. unfold build_tensor.
  rewrite (nth_map_lt _ _ _ ([], 0)) by (rewrite length_combine, length_map, length_seq; lia).
  rewrite combine_nth by (rewrite length_map, length_seq; lia).
  rewrite (nth_map_lt _ _ _ 0%nat) by (rewrite length_seq; lia).
  rewrite nth_seq_lt by lia. simpl.
  destruct T as [| T]; [lia |]. simpl.
  destruct i as [| i]; simpl; [reflexivity |].
  rewrite (nth_map_lt _ _ _ 0%nat) by (rewrite length_seq; lia).
  rewrite nth_seq_lt by lia. reflexivity.
Qed.

Lemma grads_tensor_is (p : tanh_params) (y : list R) G :
  set_d_col0 (length (psi p))
    (build_tensor (length (psi p)) (length y) (fun n i =>
       grad_quad (nth i (psi p) term0)
         (nth n (nth i (fgrad_S p y) []) 0) (nth n (nth i (fgrad_R p y) []) 0)
         (nth n (nth i (fgrad_D p y) []) 0)))
    (repeat 1 (length y)) = inr G ->
  tensor_is p y spec_grad_entry G.
Proof.
  intros HG.
  destruct (set_build_length _ _ _ _ _ (repeat_length _ _) HG) as [HlG HlR].
  split; [exact HlG |]. intros n Hn. split; [now apply HlR |].
  intros i t Ht.
  assert (Hi : (i < length (psi p))%nat) by (apply nth_error_Some; congruence).
  assert (Htn : nth i (psi p) term0 = t) by (apply nth_error_nth; exact Ht).
  rewrite (set_build_nth _ _ _ _ _ n i (repeat_length _ _) HG Hn Hi).
  destruct (Nat.eqb_spec i 0) as [-> | Hi0].
  - rewrite nth_repeat_lt by exact Hn.
    rewrite S_at, R_at, D_at by assumption. rewrite Htn.
    unfold with_qd, grad_quad, spec_grad_entry. reflexivity.
  - rewrite S_at, R_at, D_at by assumption. rewrite Htn.
    unfold grad_quad, spec_grad_entry.
    destruct (Nat.eqb_spec i 0); [contradiction | reflexivity].
Qed.

Lemma chain_tensor_is (p : tanh_params) (y : list R) C :
  set_d_col0 (length (psi p))
    (build_tensor (length (psi p)) (length y) (fun n i =>
       chain_quad (nth i (psi p) term0) (nth n y 0)
         (nth n (nth i (fgrad_S p y) []) 0) (nth n (nth i (fgrad_R p y) []) 0)))
    y = inr C ->
  tensor_is p y spec_chain_entry C.
Proof.
  intros HC.
  destruct (set_build_length _ _ _ _ _ eq_refl HC) as [HlC HlR].
  split; [exact HlC |]. intros n Hn. split; [now apply HlR |].
  intros i t Ht.
  assert (Hi : (i < length (psi p))%nat) by (apply nth_error_Some; congruence).
  assert (Htn : nth i (psi p) term0 = t) by (apply nth_error_nth; exact Ht).
  rewrite (set_build_nth _ _ _ _ _ n i eq_refl HC Hn Hi).
  destruct (Nat.eqb_spec i 0) as [-> | Hi0].
  - rewrite S_at, R_at by assumption. rewrite Htn. reflexivity.
  - rewrite S_at, R_at by assumption. rewrite Htn.
    unfold chain_quad, spec_chain_entry.
    destruct (Nat.eqb_spec i 0); [contradiction | reflexivity].
Qed.

Lemma fgrad_y_psi_out_spec (p : tanh_params) (y : list R) (chain : bool) (out : psi_out) :
  fgrad_y_psi p y chain = inr out -> psi_out_spec p y chain out.
Proof.
  unfold fgrad_y_psi. cbv zeta.
  destruct (set_d_col0 _ _ (repeat 1 (length y))) as [e | G] eqn:HG; [discriminate |].
  destruct chain.
  - destruct (set_d_col0 _ _ y) as [e | C] eqn:HC; [discriminate |].
    intros Hout. injection Hout as <-. simpl.
    split; [reflexivity |]. split.
    + exact (grads_tensor_is p y G HG).
    + exact (chain_tensor_is p y C HC).
  - intros Hout. injection Hout as <-. simpl.
    split; [reflexivity | exact (grads_tensor_is p y G HG)].
Qed.

(** C6: whatever [fgrad_y_psi] returns has, at every row [n] and term [i]
    with [S = b_i (y_n + c_i)], [R = tanh S], [D = 1 - R^2]: a-column
    [b_i sech(S)^2], b-column [a_i (D - 2 S R sech(S)^2)], c-column
    [-2 a_i b_i^2 R sech(S)^2], d-column 1 on term 0 and 0 elsewhere; with
    [return_covar_chain] the second tensor has a-column [R], b-column
    [a_i (y_n + c_i) sech(S)^2], c-column [a_i b_i sech(S)^2] and d-column
    [y_n] on term 0 only. *)
Theorem fgrad_y_psi_entries (p : tanh_params) (y : list R) (chain : bool) (out : psi_out) :
  fgrad_y_psi p y chain = inr out -> psi_out_spec p y chain out.
Proof. exact (fgrad_y_psi_out_spec p y chain out). Qed.

Lemma fgrad_y_psi_entries_witness :
  exists out, fgrad_y_psi (mk_params [mk_term 1 1 0] 1 None) [0; 1] true = inr out /\
              psi_out_spec (mk_params [mk_term 1 1 0] 1 None) [0; 1] true out.
Proof.
  eexists. split; [reflexivity |].
  apply fgrad_y_psi_entries. reflexivity.
Defined.

(** ** Sums in [update_grads] *)

Lemma sum_n_S (N : nat) (g : nat -> R) : sum_n (S N) g = g 0%nat + sum_n N (fun n => g (S n)).
Proof.
  unfold sum_n. simpl. f_equal. rewrite <- seq_shift, map_map. reflexivity.
Qed.

Lemma sum_n_ext (N : nat) (g1 g2 : nat -> R) :
  (forall n, (n < N)%nat -> g1 n = g2 n) -> sum_n N g1 = sum_n N g2.
Proof.
  intros H. unfold sum_n. f_equal. apply map_ext_in.
  intros n Hn. apply in_seq in Hn. apply H. lia.
Qed.

Lemma length_qzip (g : quad -> quad -> quad) (u v : list quad) :
  length (qzip g u v) = Nat.min (length u) (length v).
Proof.
  revert v. induction u as [| x u IH]; intros [| y v]; simpl; auto.
Qed.

Lemma nth_qzip (g : quad -> quad -> quad) (u v : list quad) (i : nat) :
  (i < length u)%nat -> (i < length v)%nat ->
  nth i (qzip g u v) q0 = g (nth i u q0) (nth i v q0).
Proof.
  revert v i. induction u as [| x u IH]; intros [| y v] i Hu Hv; simpl in *; try lia.
  destruct i; [reflexivity |]. apply IH; lia.
Qed.

(** A column projection that is additive. *)
Definition linear_sel (sel : quad -> R) : Prop :=
  (forall x y, sel (qadd x y) = sel x + sel y) /\ sel q0 = 0 /\
  (forall k x, sel (qscale k x) = k * sel x) /\ (forall x, sel (qneg x) = - sel x).

Lemma sum_rows_fold (sel : quad -> R) (T : nat) (X : tensor) (acc : list quad) (i : nat) :
  linear_sel sel -> length acc = T -> (forall n, (n < length X)%nat -> length (nth n X []) = T) ->
  (i < T)%nat ->
  length (fold_left (qzip qadd) X acc) = T /\
  sel (nth i (fold_left (qzip qadd) X acc) q0) =
    sel (nth i acc q0) + sum_n (length X) (fun n => sel (nth i (nth n X []) q0)).
Proof.
  intros [Hadd [H0 _]] Hacc HX Hi. revert acc Hacc HX.
  induction X as [| row X IH]; intros acc Hacc HX; simpl.
  - split; [exact Hacc | unfold sum_n; simpl; lra].
  - assert (Hrow : length row = T) by exact (HX 0%nat ltac:(simpl; lia)).
    destruct (IH (qzip qadd acc row)) as [Hl Hs].
    + rewrite length_qzip. lia.
    + intros n Hn. exact (HX (S n) ltac:(simpl; lia)).
    + split; [exact Hl |]. rewrite Hs, sum_n_S. simpl.
      rewrite nth_qzip by lia. rewrite Hadd. lra.
Qed.

Lemma sum_rows_nth (sel : quad -> R) (T : nat) (X : tensor) (i : nat) :
  linear_sel sel -> (forall n, (n < length X)%nat -> length (nth n X []) = T) ->
  (i < T)%nat ->
  length (sum_rows T X) = T /\
  sel (nth i (sum_rows T X) q0) = sum_n (length X) (fun n => sel (nth i (nth n X []) q0)).
Proof.
  intros Hsel HX Hi. unfold sum_rows.
  destruct (sum_rows_fold sel T X (repeat q0 T) i Hsel (repeat_length _ _) HX Hi) as [Hl Hs].
  split; [exact Hl |]. rewrite Hs, nth_repeat_lt by exact Hi.
  destruct Hsel as [_ [H0 _]]. rewrite H0. lra.
Qed.

Lemma linear_qa : linear_sel qa. Proof. repeat split; reflexivity. Qed.
Lemma linear_qb : linear_sel qb. Proof. repeat split; reflexivity. Qed.
Lemma linear_qc : linear_sel qc. Proof. repeat split; reflexivity. Qed.
Lemma linear_qd : linear_sel qd. Proof. repeat split; reflexivity. Qed.

Lemma col_D_at (p : tanh_params) (y : list R) (n : nat) :
  (n < length y)%nat ->
  col (fgrad_D p y) n = map (fun t => 1 - tanh (tb t * (nth n y 0 + tc t)) ^ 2) (psi p).
Proof.
  intros Hn. unfold col, fgrad_D, fgrad_R, fgrad_S. rewrite !map_map.
  apply map_ext. intros t.
  rewrite (nth_map_lt _ _ _ 0) by (rewrite !length_map; exact Hn).
  rewrite (nth_map_lt _ _ _ 0) by (rewrite length_map; exact Hn).
  rewrite (nth_map_lt _ _ _ 0) by exact Hn. reflexivity.
Qed.

Lemma fgrad_y_length (p : tanh_params) (y : list R) : length (fgrad_y p y) = length y.
Proof. unfold fgrad_y. rewrite length_map, length_seq. reflexivity. Qed.

Lemma fgrad_y_nth (p : tanh_params) (y : list R) (n : nat) :
  (n < length y)%nat -> nth n (fgrad_y p y) 0 = jacobian_entry p (nth n y 0).
Proof.
  intros Hn. unfold fgrad_y. rewrite (nth_map_lt _ _ _ 0%nat) by (rewrite length_seq; exact Hn).
  rewrite nth_seq_lt by exact Hn. simpl. rewrite col_D_at by exact Hn. reflexivity.
Qed.

Lemma fgrad_y_psi_chain_ok (p : tanh_params) (y : list R) :
  psi p <> [] ->
  exists G C, fgrad_y_psi p y true = inr (GradsChain G C) /\
              tensor_is p y spec_grad_entry G /\ tensor_is p y spec_chain_entry C.
Proof.
  intros Hne. destruct (fgrad_y_psi p y true) as [e | out] eqn:Hout.
  - exfalso. unfold fgrad_y_psi, set_d_col0 in Hout. cbv zeta in Hout.
    destruct (Nat.eqb_spec (length (psi p)) 0) as [H0 | H0].
    + apply length_zero_iff_nil in H0. contradiction.
    + discriminate.
  - pose proof (fgrad_y_psi_out_spec p y true out Hout) as Hs.
    destruct out as [G | G C]; simpl in Hs; [destruct Hs; discriminate |].
    exists G, C. tauto.
Qed.

Section UpdateGrads.
Variable p : tanh_params.
Variables Y Kiy : list R.
Variables G C : tensor.
Hypothesis HK : length Kiy = length Y.
Hypothesis HG : tensor_is p Y spec_grad_entry G.
Hypothesis HC : tensor_is p Y spec_chain_entry C.

Let T := length (psi p).
Lemma nth_scaled_rows (ks : list R) (X : tensor) (n i : nat) :
  length ks = length Y -> tensor_is p Y spec_grad_entry X \/ tensor_is p Y spec_chain_entry X ->
  (n < length Y)%nat -> (i < T)%nat ->
  length (map (fun '(k, row) => map (qscale k) row) (combine ks X)) = length Y /\
  length (nth n (map (fun '(k, row) => map (qscale k) row) (combine ks X)) []) = T /\
  nth i (nth n (map (fun '(k, row) => map (qscale k) row) (combine ks X)) []) q0 =
    qscale (nth n ks 0) (nth i (nth n X []) q0).
Proof.
  intros Hks HX Hn Hi.
  assert (HlX : length X = length Y /\ length (nth n X []) = T).
  { destruct HX as [[Hl Hr] | [Hl Hr]]; split; auto; apply Hr; exact Hn. }
  destruct HlX as [HlX HlR].
  rewrite length_map, length_combine.
  rewrite (nth_map_lt _ _ _ (0, [])) by (rewrite length_combine; lia).
  rewrite combine_nth by lia.
  rewrite length_map. split; [lia |]. split; [exact HlR |].
  apply nth_map_lt. lia.
Qed.

Lemma update_col (sel : quad -> R) (i : nat) :
  linear_sel sel -> (i < T)%nat ->
  sel (nth i (qzip (fun q j => qadd (qneg q) j)
                (sum_rows T (map (fun '(k, row) => map (qscale k) row) (combine Kiy C)))
                (sum_rows T (map (fun '(g, row) => map (qscale (1 / g)) row)
                                 (combine (fgrad_y p Y) G)))) q0)
  = total_col sel p Y Kiy i.
Proof.
  intros Hsel Hi. pose proof Hsel as [Hadd [H0 [Hscale Hneg]]].
  assert (Hrows : forall ks X, length ks = length Y ->
                  tensor_is p Y spec_grad_entry X \/ tensor_is p Y spec_chain_entry X ->
                  forall n, (n < length (map (fun '(k, row) => map (qscale k) row) (combine ks X)))%nat ->
                  length (nth n (map (fun '(k, row) => map (qscale k) row) (combine ks X)) []) = T).
  { intros ks X Hks HX n Hn.
    assert (HlX : length X = length Y) by (destruct HX as [[Hl _] | [Hl _]]; exact Hl).
    rewrite length_map, length_combine in Hn.
    apply (nth_scaled_rows ks X n 0%nat Hks HX); [lia |].
    unfold T. destruct (psi p); simpl in *; lia. }
  (* [djac] is the same map written with [1 / g] *)
  assert (Hdj : sum_rows T (map (fun '(g, row) => map (qscale (1 / g)) row)
                                 (combine (fgrad_y p Y) G))
                = sum_rows T (map (fun '(k, row) => map (qscale k) row)
                                     (combine (map (fun g => 1 / g) (fgrad_y p Y)) G))).
  { f_equal. clear.
    generalize (fgrad_y p Y). induction G as [| r G' IH]; intros [| g gs]; simpl; auto.
    f_equal. apply IH. }
  assert (Hlg : length (map (fun g => 1 / g) (fgrad_y p Y)) = length Y)
    by (rewrite length_map; apply fgrad_y_length).
  destruct (sum_rows_nth sel T _ i Hsel (Hrows _ C HK (or_intror HC)) Hi) as [HlQ HsQ].
  destruct (sum_rows_nth sel T _ i Hsel (Hrows _ G Hlg (or_introl HG)) Hi) as [HlJ HsJ].
  rewrite Hdj, nth_qzip by (rewrite ?HlQ, ?HlJ; assumption).
  rewrite Hadd, Hneg, HsQ, HsJ.
  rewrite !length_map, !length_combine, !length_map, ?fgrad_y_length, HK.
  replace (Nat.min (length Y) (length C)) with (length Y) by (destruct HC as [-> _]; lia).
  replace (Nat.min (length Y) (length G)) with (length Y) by (destruct HG as [-> _]; lia).
  unfold total_col.
  assert (Ht : nth_error (psi p) i = Some (nth i (psi p) term0)) by (apply nth_error_nth'; exact Hi).
  rewrite (sum_n_ext _ (fun n => sel (nth i (nth n (map (fun '(k, row) => map (qscale k) row)
                                        (combine Kiy C)) []) q0))
                       (fun n => nth n Kiy 0 * sel (spec_chain_entry (nth i (psi p) term0) i (nth n Y 0)))).
  2:{ intros n Hn. destruct (nth_scaled_rows Kiy C n i HK (or_intror HC) Hn Hi) as [_ [_ ->]].
      rewrite Hscale. destruct HC as [_ HCn]. destruct (HCn n Hn) as [_ HCe].
      rewrite (HCe i _ Ht). reflexivity. }
  rewrite (sum_n_ext _ (fun n => sel (nth i (nth n (map (fun '(k, row) => map (qscale k) row)
                            (combine (map (fun g => 1 / g) (fgrad_y p Y)) G)) []) q0))
                       (fun n => 1 / jacobian_entry p (nth n Y 0) *
                                     sel (spec_grad_entry (nth i (psi p) term0) i (nth n Y 0)))).
  2:{ intros n Hn. destruct (nth_scaled_rows _ G n i Hlg (or_introl HG) Hn Hi) as [_ [_ ->]].
      rewrite Hscale. destruct HG as [_ HGn]. destruct (HGn n Hn) as [_ HGe].
      rewrite (HGe i _ Ht).
      rewrite (nth_map_lt _ _ _ 0) by (rewrite fgrad_y_length; exact Hn).
      rewrite fgrad_y_nth by exact Hn. reflexivity. }
  lra.
Qed.
End UpdateGrads.

Lemma update_grads_result (w : warp_state) (Y Kiy : list R) :
  psi (wparams w) <> [] -> length Kiy = length Y ->
  update_grads w Y Kiy =
    inr (mk_warp (wparams w)
           (map (fun i => (total_col qa (wparams w) Y Kiy i, total_col qb (wparams w) Y Kiy i,
                           total_col qc (wparams w) Y Kiy i))
                (seq 0 (length (psi (wparams w)))))
           (total_col qd (wparams w) Y Kiy 0)).
Proof.
  intros Hne HK. set (p := wparams w) in *.
  destruct (fgrad_y_psi_chain_ok p Y Hne) as [G [C [Hout [HG HC]]]].
  assert (HT : (0 < length (psi p))%nat) by (destruct (psi p); [contradiction | simpl; lia]).
  assert (HlC : length C = length Y) by (destruct HC as [Hl _]; exact Hl).
  unfold update_grads. fold p. rewrite Hout.
  unfold kiy_scale. rewrite HK, HlC, Nat.eqb_refl.
  set (T := length (psi p)).
  set (wg := qzip (fun q j => qadd (qneg q) j)
               (sum_rows T (map (fun '(k, row) => map (qscale k) row) (combine Kiy C)))
               (sum_rows T (map (fun '(g, row) => map (qscale (1 / g)) row)
                                (combine (fgrad_y p Y) G)))).
  assert (Hcol : forall sel i, linear_sel sel -> (i < T)%nat ->
                 sel (nth i wg q0) = total_col sel p Y Kiy i)
    by (intros sel i Hsel Hi; exact (update_col p Y Kiy G C HK HG HC sel i Hsel Hi)).
  assert (Hlwg : length wg = T).
  { unfold wg. rewrite length_qzip.
    assert (Hrows : forall ks X, length ks = length X -> length X = length Y ->
              (forall n, (n < length Y)%nat -> length (nth n X []) = T) ->
              forall n, (n < length (map (fun '(k, row) => map (qscale k) row) (combine ks X)))%nat ->
              length (nth n (map (fun '(k, row) => map (qscale k) row) (combine ks X)) []) = T).
    { intros ks X Hks HX HXr n Hn. rewrite length_map, length_combine in Hn.
      rewrite (nth_map_lt _ _ _ (0, [])) by (rewrite length_combine; lia).
      rewrite combine_nth by lia. rewrite length_map. apply HXr. lia. }
    assert (HGr : forall n, (n < length Y)%nat -> length (nth n G []) = T)
      by (intros n Hn; destruct HG as [_ HGn]; apply HGn; exact Hn).
    assert (HCr : forall n, (n < length Y)%nat -> length (nth n C []) = T)
      by (intros n Hn; destruct HC as [_ HCn]; apply HCn; exact Hn).
    assert (HlG : length G = length Y) by (destruct HG as [Hl _]; exact Hl).
    destruct (sum_rows_nth qa T _ 0 linear_qa
                (Hrows Kiy C ltac:(lia) HlC HCr) HT) as [H1 _].
    assert (Hdj : map (fun '(g, row) => map (qscale (1 / g)) row) (combine (fgrad_y p Y) G)
                  = map (fun '(k, row) => map (qscale k) row)
                        (combine (map (fun g => 1 / g) (fgrad_y p Y)) G)).
    { clear. generalize (fgrad_y p Y). induction G as [| r G' IH]; intros [| g gs]; simpl; auto.
      f_equal. apply IH. }
    rewrite Hdj.
    assert (Hl1 : length (map (fun g => 1 / g) (fgrad_y p Y)) = length G)
      by (rewrite length_map, fgrad_y_length; symmetry; exact HlG).
    destruct (sum_rows_nth qa T _ 0 linear_qa (Hrows _ G Hl1 HlG HGr) HT) as [H2 _].
    rewrite H1, H2. lia. }
  f_equal. f_equal.
  - apply nth_ext with (d := (0, 0, 0)) (d' := (0, 0, 0)).
    + rewrite !length_map, length_seq. exact Hlwg.
    + intros i Hi. rewrite length_map, Hlwg in Hi.
      rewrite (nth_map_lt _ _ _ q0) by lia.
      rewrite (nth_map_lt _ _ _ 0%nat) by (rewrite length_seq; lia).
      rewrite nth_seq_lt by lia. simpl.
      rewrite (Hcol qa i linear_qa Hi), (Hcol qb i linear_qb Hi), (Hcol qc i linear_qc Hi).
      reflexivity.
  - exact (Hcol qd 0%nat linear_qd HT).
Qed.

Lemma update_grads_params (w1 w2 : warp_state) (Y Kiy : list R) :
  wparams w1 = wparams w2 -> update_grads w1 Y Kiy = update_grads w2 Y Kiy.
Proof. intros H. unfold update_grads. rewrite H. reflexivity. Qed.

(** C7: [update_grads] writes [total = jacobian_grad - quadratic_grad],
    with [jacobian_grad = Sum_n (1 / jacobian(y_n)) * parameter_jacobian(y_n)]
    and [quadratic_grad = Sum_n Kiy_n * covariance_chain(y_n)]: the
    [(a, b, c)] columns of every term go to [psi.gradient], the d-column of
    term 0 to [d.gradient]; the parameters are untouched and the old buffers
    are ignored, so a second call with the same inputs leaves the same
    buffers.  (With no term at all, [fgrad_y_psi] raises first; [Kiy] is
    one residual per observation.) *)
Theorem update_grads_overwrites (w : warp_state) (Y Kiy : list R) :
  psi (wparams w) <> [] -> length Kiy = length Y ->
  exists w', update_grads w Y Kiy = inr w' /\
    wparams w' = wparams w /\
    psi_grad w' =
      map (fun i => (total_col qa (wparams w) Y Kiy i, total_col qb (wparams w) Y Kiy i,
                     total_col qc (wparams w) Y Kiy i))
          (seq 0 (length (psi (wparams w)))) /\
    d_grad w' = total_col qd (wparams w) Y Kiy 0 /\
    (forall w2, wparams w2 = wparams w -> update_grads w2 Y Kiy = inr w') /\
    update_grads w' Y Kiy = inr w'.
Proof.
  intros Hne HK. eexists. split; [exact (update_grads_result w Y Kiy Hne HK) |].
  simpl. split; [reflexivity |]. split; [reflexivity |]. split; [reflexivity |].
  split.
  - intros w2 Hw2. rewrite (update_grads_params w2 w Y Kiy Hw2).
    exact (update_grads_result w Y Kiy Hne HK).
  - etransitivity; [apply (update_grads_params _ w); reflexivity |].
    exact (update_grads_result w Y Kiy Hne HK).
Qed.

Lemma update_grads_overwrites_witness :
  exists w', update_grads (mk_warp (mk_params [mk_term 1 1 0] 1 None) [(5, 5, 5)] 7) [0] [1] = inr w' /\
    psi_grad w' = [(total_col qa (mk_params [mk_term 1 1 0] 1 None) [0] [1] 0,
                    total_col qb (mk_params [mk_term 1 1 0] 1 None) [0] [1] 0,
                    total_col qc (mk_params [mk_term 1 1 0] 1 None) [0] [1] 0)] /\
    update_grads w' [0] [1] = inr w'.
Proof.
  destruct (update_grads_overwrites (mk_warp (mk_params [mk_term 1 1 0] 1 None) [(5, 5, 5)] 7)
              [0] [1] ltac:(simpl; discriminate) eq_refl)
    as [w' [H1 [_ [H2 [_ [_ H3]]]]]].
  exists w'. split; [exact H1 | split; [exact H2 | exact H3]].
Defined.

(** ** The Newton-Raphson loop of [f_inv] *)

Lemma length_zip_with (g : R -> R -> R) (u v : list R) :
  length (zip_with g u v) = Nat.min (length u) (length v).
Proof. revert v. induction u as [| x u IH]; intros [| y v]; simpl; auto. Qed.

Lemma nth_zip_with (g : R -> R -> R) (u v : list R) (n : nat) :
  (n < length u)%nat -> (n < length v)%nat ->
  nth n (zip_with g u v) 0 = g (nth n u 0) (nth n v 0).
Proof.
  revert v n. induction u as [| x u IH]; intros [| y v] n Hu Hv; simpl in *; try lia.
  destruct n; [reflexivity |]. apply IH; lia.
Qed.

Lemma bcast_same (g : R -> R -> R) (u v : list R) :
  length u = length v -> bcast g u v = inr (zip_with g u v).
Proof. intros H. unfold bcast. rewrite H, Nat.eqb_refl. reflexivity. Qed.

Lemma f_length (p : tanh_params) (y : list R) : length (f p y) = length y.
Proof. apply length_map. Qed.

Lemma f_nth (p : tanh_params) (y : list R) (n : nat) :
  (n < length y)%nat -> nth n (f p y) 0 = f_entry p (nth n y 0).
Proof. intros Hn. unfold f. apply nth_map_lt. exact Hn. Qed.

(** On columns of the length of [z], a Newton step never raises. *)
Lemma nr_step_ok (p : tanh_params) (zc yv : list R) :
  length yv = length zc ->
  nr_step p zc yv =
    inr (zip_with Rminus yv (zip_with Rdiv (zip_with Rminus (f p yv) zc) (fgrad_y p yv)),
         zip_with Rdiv (zip_with Rminus (f p yv) zc) (fgrad_y p yv)).
Proof.
  intros Hl. unfold nr_step.
  rewrite bcast_same by (rewrite f_length; exact Hl).
  rewrite bcast_same by (rewrite length_zip_with, f_length, fgrad_y_length; lia).
  unfold inplace.
  rewrite bcast_same by (rewrite !length_zip_with, f_length, fgrad_y_length; lia).
  rewrite !length_zip_with, f_length, fgrad_y_length.
  replace (Nat.min (length yv) (Nat.min (Nat.min (length yv) (length zc)) (length yv)))
    with (length yv) by lia.
  rewrite Nat.eqb_refl. reflexivity.
Qed.

Lemma nr_step_entry (p : tanh_params) (zc yv y' u : list R) (n : nat) :
  length yv = length zc -> nr_step p zc yv = inr (y', u) ->
  length y' = length zc /\ length u = length zc /\
  ((n < length zc)%nat ->
   nth n u 0 = (f_entry p (nth n yv 0) - nth n zc 0) / jacobian_entry p (nth n yv 0) /\
   nth n y' 0 = nth n yv 0 - nth n u 0).
Proof.
  intros Hl Hs. rewrite nr_step_ok in Hs by exact Hl. injection Hs as <- <-.
  rewrite !length_zip_with, f_length, fgrad_y_length.
  split; [lia | split; [lia |]]. intros Hn.
  assert (Hu : nth n (zip_with Rdiv (zip_with Rminus (f p yv) zc) (fgrad_y p yv)) 0 =
               (f_entry p (nth n yv 0) - nth n zc 0) / jacobian_entry p (nth n yv 0)).
  { rewrite nth_zip_with by (rewrite ?length_zip_with, ?f_length, ?fgrad_y_length; lia).
    rewrite nth_zip_with by (rewrite ?f_length; lia).
    rewrite f_nth, fgrad_y_nth by lia. reflexivity. }
  split; [exact Hu |].
  rewrite nth_zip_with by (rewrite ?length_zip_with, ?f_length, ?fgrad_y_length; lia).
  rewrite Hu. reflexivity.
Qed.

Lemma read_write_eq (h : heap) (l : loc) (v : list R) : read (write h l v) l = v.
Proof. unfold read, write. simpl. rewrite Nat.eqb_refl. reflexivity. Qed.

Lemma read_write_ne (h : heap) (l l' : loc) (v : list R) :
  l' <> l -> read (write h l v) l' = read h l'.
Proof. intros H. unfold read, write. simpl. destruct (Nat.eqb_spec l' l); congruence. Qed.

Section Loop.
Variable p : tanh_params.
Variables zc y0 : list R.
Variable yl : loc.
Variable maxit : Z.
Variable h0 : heap.
Hypothesis Hlen : length y0 = length zc.

Local Abbreviation loop_inv := (loop_inv p zc y0 yl h0).
Local Abbreviation cond_at := (cond_at p zc y0 maxit).

Lemma body_inv (j : nat) (st : nr_state) :
  loop_inv j st ->
  exists st', nr_body p zc yl st = inr st' /\ loop_inv (S j) st'.
Proof.
  intros [Hit [Htr [Hl [Hnext Hother]]]].
  pose proof (nr_step_ok p zc _ Hl) as Hs.
  eexists. unfold nr_body. rewrite Hs. split; [reflexivity |].
  unfold loop_inv. cbn [st_heap st_it st_update fst snd]. rewrite read_write_eq.
  split; [rewrite Hit; lia |].
  split; [cbn [nr_traj]; rewrite Htr; cbn [fst]; rewrite Hs; reflexivity |].
  split; [rewrite !length_zip_with, f_length, fgrad_y_length; lia |].
  split; [exact Hnext |].
  intros l Hne. rewrite read_write_ne by exact Hne. apply Hother. exact Hne.
Qed.

Local Abbreviation B := (Nat.max 1 (Z.to_nat maxit)).

Lemma cond_false_after (j : nat) (st : nr_state) :
  loop_inv j st -> (B <= j)%nat -> loop_cond maxit st = false.
Proof.
  intros [Hit _] Hj. unfold loop_cond, continue_cond. rewrite Hit.
      destruct (Z.eqb_spec (Z.of_nat j) 0) as [H0 | _]; [lia |].
  destruct (Z.ltb_spec (Z.of_nat j) maxit) as [Hlt | _]; [lia |].
  rewrite Bool.andb_false_r. reflexivity.
Qed.

Lemma loop_run (F j : nat) (st : nr_state) :
  loop_inv j st -> (j <= B)%nat -> (B + 1 <= j + F)%nat ->
  exists k st', nr_loop p zc yl maxit F st = Some (inr st') /\ loop_inv k st' /\
    (j <= k <= B)%nat /\ loop_cond maxit st' = false /\
    (forall m, (j <= m < k)%nat -> cond_at m).
Proof.
  revert j st. induction F as [| F IH]; intros j st Hinv Hj HF; [lia |].
  cbn [nr_loop]. destruct (loop_cond maxit st) eqn:Hc.
  - assert (HjB : (j < B)%nat).
    { destruct (Nat.lt_ge_cases j B) as [H | H]; [exact H |].
      rewrite (cond_false_after j st Hinv H) in Hc. discriminate. }
    destruct (body_inv j st Hinv) as [st1 [Hb Hinv1]]. rewrite Hb.
    destruct (IH (S j) st1 Hinv1 ltac:(lia) ltac:(lia))
      as [k [st' [Hrun [Hinv' [Hk [Hstop Hfirst]]]]]].
    exists k, st'. split; [exact Hrun |]. split; [exact Hinv' |].
    split; [lia |]. split; [exact Hstop |].
    intros m Hm. destruct (Nat.eq_dec m j) as [-> | Hmj]; [| apply Hfirst; lia].
    destruct Hinv as [Hit [Htr _]].
    exists (read (st_heap st) yl), (st_update st). split; [exact Htr |].
    unfold loop_cond in Hc. rewrite Hit in Hc. exact Hc.
  - exists j, st. split; [reflexivity |]. split; [exact Hinv |].
    split; [lia |]. split; [exact Hc |]. intros m Hm. lia.
Qed.

Lemma loop_from_start :
  read h0 yl = y0 ->
  exists k st', nr_loop p zc yl maxit (Z.to_nat maxit + 2) (mk_state h0 0 UInf) = Some (inr st') /\
    loop_inv k st' /\ (1 <= k <= Nat.max 1 (Z.to_nat maxit))%nat /\
    loop_cond maxit st' = false /\ (forall m, (m < k)%nat -> cond_at m).
Proof.
  intros Hy0.
  assert (Hinv0 : loop_inv 0 (mk_state h0 0 UInf)).
  { unfold loop_inv. simpl. rewrite Hy0. repeat split; auto. }
  destruct (loop_run (Z.to_nat maxit + 2) 0 _ Hinv0 ltac:(lia) ltac:(lia))
    as [k [st' [Hrun [Hinv [Hk [Hstop Hfirst]]]]]].
  exists k, st'. split; [exact Hrun |]. split; [exact Hinv |].
  split; [| split; [exact Hstop | intros m Hm; apply Hfirst; lia]].
  split; [| exact (proj2 Hk)].
  destruct k as [| k]; [| lia].
  exfalso. destruct Hinv as [Hit _]. unfold loop_cond, continue_cond in Hstop.
  rewrite Hit in Hstop. simpl in Hstop. discriminate.
Qed.
End Loop.

Lemma init_guess_length (p : tanh_params) (zc y0 : list R) :
  init_guess p zc = inr y0 -> length y0 = length zc.
Proof.
  unfold init_guess. destruct (initial_y p) as [iy |].
  - unfold inplace. destruct (bcast Rmult _ iy) as [e | r]; [discriminate |].
    match goal with |- context [Nat.eqb (length r) ?n] =>
      destruct (Nat.eqb_spec (length r) n) as [Hr | _]; [| discriminate] end.
    intros H. injection H as <-. rewrite Hr, length_map. reflexivity.
  - intros H. injection H as <-. apply length_map.
Qed.

Lemma read_alloc_eq (h : heap) (v : list R) : read (snd (alloc h v)) (fst (alloc h v)) = v.
Proof. unfold read, alloc. simpl. rewrite Nat.eqb_refl. reflexivity. Qed.


(** [f_inv] without [y]: the loop runs on a new array holding the initial
    guess. *)
Lemma run_none (p : tanh_params) (h : heap) (zl : loc) (maxit : Z) (y0 : list R) :
  init_guess p (read h zl) = inr y0 ->
  exists k st, f_inv_run p h zl maxit None = Some (inr (next_loc h, st)) /\
    loop_inv p (read h zl) y0 (next_loc h) (snd (alloc h y0)) k st /\
    (1 <= k <= Nat.max 1 (Z.to_nat maxit))%nat /\ loop_cond maxit st = false /\
    (forall m, (m < k)%nat -> cond_at p (read h zl) y0 maxit m).
Proof.
  intros Hinit. pose proof (init_guess_length _ _ _ Hinit) as Hl.
  destruct (loop_from_start p (read h zl) y0 (next_loc h) maxit (snd (alloc h y0)) Hl
              (read_alloc_eq h y0)) as [k [st [Hrun Hrest]]].
  exists k, st. split; [| exact Hrest].
  unfold f_inv_run. rewrite Hinit. simpl. simpl in Hrun. rewrite Hrun. reflexivity.
Qed.

(** [f_inv] with a caller's array [y]. *)
Lemma run_some (p : tanh_params) (h : heap) (zl yl : loc) (maxit : Z) :
  length (read h yl) = length (read h zl) ->
  exists k st, f_inv_run p h zl maxit (Some yl) = Some (inr (yl, st)) /\
    loop_inv p (read h zl) (read h yl) yl h k st /\
    (1 <= k <= Nat.max 1 (Z.to_nat maxit))%nat /\ loop_cond maxit st = false /\
    (forall m, (m < k)%nat -> cond_at p (read h zl) (read h yl) maxit m).
Proof.
  intros Hl.
  destruct (loop_from_start p (read h zl) (read h yl) yl maxit h Hl eq_refl)
    as [k [st [Hrun Hrest]]].
  exists k, st. split; [| exact Hrest].
  unfold f_inv_run. rewrite Hrun. reflexivity.
Qed.

Lemma traj_succ (p : tanh_params) (zc y0 : list R) (k : nat) (y : list R) (u : upd_val) :
  nr_traj p zc y0 (S k) = inr (y, u) ->
  exists yk uk v, nr_traj p zc y0 k = inr (yk, uk) /\ nr_step p zc yk = inr (y, v) /\ u = UArr v.
Proof.
  intros H. cbn [nr_traj] in H.
  destruct (nr_traj p zc y0 k) as [e | [yk uk]]; [discriminate |].
  cbn [fst] in H. destruct (nr_step p zc yk) as [e | [y' v]] eqn:Hs; [discriminate |].
  cbn [fst snd] in H. injection H as Hy Hu. subst y u.
  exists yk, uk, v. split; [reflexivity | split; [exact Hs | reflexivity]].
Qed.

(** ** Claims on [f_inv] *)

(** C4 (as corrected): for [max_iterations >= 1], once the initial guess
    is formed, the loop of [f_inv] runs [k] passes with
    [1 <= k <= max_iterations] and stops: at [k = max_iterations], or at the
    first [k] at which the sum of absolute updates is at most [1e-10]; at
    every earlier pass [1 <= m < k] that sum exceeded [1e-10] and
    [m < max_iterations].  The array returned holds the [k]-th iterate. *)
Theorem f_inv_loop_stops (p : tanh_params) (h : heap) (zl : loc) (maxit : Z) (y0 : list R) :
  (1 <= maxit)%Z -> init_guess p (read h zl) = inr y0 ->
  exists k st, f_inv_run p h zl maxit None = Some (inr (next_loc h, st)) /\
    st_it st = Z.of_nat k /\ (1 <= k)%nat /\ (Z.of_nat k <= maxit)%Z /\
    nr_traj p (read h zl) y0 k = inr (read (st_heap st) (next_loc h), st_update st) /\
    (Z.of_nat k = maxit \/ exists u, st_update st = UArr u /\ sum_abs u <= tol) /\
    (forall m, (1 <= m < k)%nat ->
       exists y u, nr_traj p (read h zl) y0 m = inr (y, UArr u) /\
                   tol < sum_abs u /\ (Z.of_nat m < maxit)%Z).
Proof.
  intros Hmax Hinit.
  destruct (run_none p h zl maxit y0 Hinit)
    as [k [st [Hrun [[Hit [Htr _]] [Hk [Hstop Hfirst]]]]]].
  exists k, st. split; [exact Hrun |]. split; [exact Hit |]. split; [lia |].
  split; [lia |]. split; [exact Htr |]. split.
  - unfold loop_cond, continue_cond in Hstop. rewrite Hit in Hstop.
    apply Bool.orb_false_iff in Hstop as [_ Hstop].
    destruct k as [| k']; [lia |].
    destruct (traj_succ _ _ _ _ _ _ Htr) as [yk [uk [v [_ [_ Hu]]]]].
    rewrite Hu in Hstop |- *.
    apply Bool.andb_false_iff in Hstop as [Hgt | Hlt].
    + right. exists v. split; [reflexivity |]. unfold upd_gt_tol in Hgt.
      destruct (Rlt_dec tol (sum_abs v)); [discriminate | lra].
    + left. apply Z.ltb_ge in Hlt. lia.
  - intros m Hm. destruct (Hfirst m ltac:(lia)) as [y [u [Hm_tr Hc]]].
    destruct m as [| m']; [lia |].
    destruct (traj_succ _ _ _ _ _ _ Hm_tr) as [ym [um [v [_ [_ Hu]]]]]. subst u.
    exists y, v. split; [exact Hm_tr |].
    unfold continue_cond in Hc. apply Bool.orb_true_iff in Hc as [H0 | Hc]; [apply Z.eqb_eq in H0; lia |].
    apply Bool.andb_true_iff in Hc as [Hgt Hlt]. apply Z.ltb_lt in Hlt.
    split; [| exact Hlt]. unfold upd_gt_tol in Hgt.
    destruct (Rlt_dec tol (sum_abs v)); [assumption | discriminate].
Qed.

Lemma f_inv_loop_stops_witness :
  (1 <= 100)%Z /\ init_guess (mk_params [mk_term 1 1 0] 1 None) (read (mk_heap (fun _ => [0]) 1%nat) 0%nat) = inr [-1] /\
  exists k st, f_inv_run (mk_params [mk_term 1 1 0] 1 None) (mk_heap (fun _ => [0]) 1%nat) 0%nat 100%Z None
                 = Some (inr (1%nat, st)) /\ st_it st = Z.of_nat k /\ (1 <= k)%nat.
Proof.
  assert (Hinit : init_guess (mk_params [mk_term 1 1 0] 1 None) (read (mk_heap (fun _ => [0]) 1%nat) 0%nat) = inr [-1]).
  { unfold init_guess, read. simpl.
    destruct (Rlt_dec 0 0); [lra |]. destruct (Rle_dec 0 0); [| lra].
    f_equal. f_equal. lra. }
  split; [lia |]. split; [exact Hinit |].
  destruct (f_inv_loop_stops _ _ 0%nat 100%Z _ ltac:(lia) Hinit)
    as [k [st [Hrun [Hit [Hk _]]]]].
  exists k, st. auto.
Defined.

(** ** One-entry columns *)

Lemma fgrad_y_single (p : tanh_params) (y : R) : fgrad_y p [y] = [jacobian_entry p y].
Proof.
  unfold fgrad_y. cbn [length seq map]. f_equal.
  rewrite col_D_at by (simpl; lia). reflexivity.
Qed.

Lemma nr_step_single (p : tanh_params) (z y : R) :
  nr_step p [z] [y] =
    inr ([y - (f_entry p y - z) / jacobian_entry p y], [(f_entry p y - z) / jacobian_entry p y]).
Proof.
  rewrite nr_step_ok by reflexivity. unfold f. cbn [map]. rewrite fgrad_y_single.
  reflexivity.
Qed.

Lemma traj1_single (p : tanh_params) (z y : R) :
  nr_traj p [z] [y] 1 =
    inr ([y - (f_entry p y - z) / jacobian_entry p y],
         UArr [(f_entry p y - z) / jacobian_entry p y]).
Proof. cbn [nr_traj fst]. rewrite nr_step_single. reflexivity. Qed.

Lemma sum_abs_single (u : R) : sum_abs [u] = Rabs u.
Proof. unfold sum_abs. simpl. ring. Qed.

Lemma upd_gt_tol_single (u : R) : upd_gt_tol (UArr [u]) = true <-> tol < Rabs u.
Proof.
  unfold upd_gt_tol. rewrite sum_abs_single.
  destruct (Rlt_dec tol (Rabs u)); split; intros; auto; discriminate.
Qed.

Lemma init_guess_pos (p : tanh_params) (z : R) :
  initial_y p = None -> 0 < z -> init_guess p [z] = inr [1].
Proof.
  intros Hiy Hz. unfold init_guess. rewrite Hiy. cbn [map].
  destruct (Rlt_dec 0 z); [| lra]. destruct (Rle_dec z 0); [lra |].
  f_equal. f_equal. ring.
Qed.

Lemma init_guess_nonpos (p : tanh_params) (z : R) :
  initial_y p = None -> z <= 0 -> init_guess p [z] = inr [-1].
Proof.
  intros Hiy Hz. unfold init_guess. rewrite Hiy. cbn [map].
  destruct (Rlt_dec 0 z); [lra |]. destruct (Rle_dec z 0); [| lra].
  f_equal. f_equal. ring.
Qed.

Lemma tol_value : tol = 1 / 10000000000.
Proof. unfold tol. simpl. field. Qed.

Lemma tol_pos : 0 < tol.
Proof. rewrite tol_value. lra. Qed.

(** If the condition fails after the first pass, the loop stops there. *)
Lemma first_stop (p : tanh_params) (zc y0 : list R) (maxit : Z) (k : nat) (y1 : list R) (u1 : upd_val) :
  (forall m, (m < k)%nat -> cond_at p zc y0 maxit m) ->
  nr_traj p zc y0 1 = inr (y1, u1) -> continue_cond maxit 1 u1 = false -> (k <= 1)%nat.
Proof.
  intros Hfirst Htr Hc. destruct (Nat.le_gt_cases k 1) as [H | H]; [exact H |].
  destruct (Hfirst 1%nat H) as [y [u [Htr' Hc']]].
  rewrite Htr in Htr'. injection Htr' as _ <-. simpl in Hc'. congruence.
Qed.

(** One term: [f] and its derivative written out. *)
Lemma f_entry_one (t : term) (dd : R) (iy : option (list R)) (y : R) :
  f_entry (mk_params [t] dd iy) y = dd * y + ta t * tanh (tb t * (y + tc t)).
Proof. reflexivity. Qed.

Lemma jacobian_entry_one (t : term) (dd : R) (iy : option (list R)) (y : R) :
  jacobian_entry (mk_params [t] dd iy) y = dd + ta t * tb t * (1 - tanh (tb t * (y + tc t)) ^ 2).
Proof. unfold jacobian_entry, sum_terms. simpl. ring. Qed.

Lemma read_heap1 (v : list R) : read (heap1 v) 0%nat = v.
Proof. reflexivity. Qed.

(** The update of [p_edge] at [y = 1]. *)
Lemma p_edge_update (z : R) :
  (f_entry p_edge 1 - z) / jacobian_entry p_edge 1 = (1 - z) / 2.
Proof.
  unfold p_edge. rewrite f_entry_one, jacobian_entry_one. cbn [ta tb tc].
  replace (1 * (1 + -1)) with 0 by ring. rewrite tanh_0. field.
Qed.

(** The update of [p_bound] at [y = 1]. *)
Lemma p_bound_update (z : R) :
  (f_entry p_bound 1 - z) / jacobian_entry p_bound 1 = (9765624 - z) / 9765625.
Proof.
  unfold p_bound. rewrite f_entry_one, jacobian_entry_one. cbn [ta tb tc].
  replace (1 * (1 + -1)) with 0 by ring. rewrite tanh_0. field.
Qed.

(** C4, counterexample: with [p_bound] and [z = 9765624 - 2^-10] (both
    exact doubles) the loop stops after pass 1 (of at most 100) although
    the sum of absolute updates is exactly [2^-10 / 5^10 = 1e-10], not
    below it. *)
Lemma f_inv_stops_at_tolerance_cex :
  exists st u, f_inv_run p_bound (heap1 [9765624 - 1 / 1024]) 0%nat 100%Z None = Some (inr (1%nat, st)) /\
    st_it st = 1%Z /\ st_update st = UArr [u] /\ sum_abs [u] = tol.
Proof.
  pose proof tol_pos as Htol.
  assert (Hinit : init_guess p_bound (read (heap1 [9765624 - 1 / 1024]) 0%nat) = inr [1]).
  { rewrite read_heap1. apply init_guess_pos; [reflexivity | lra]. }
  destruct (run_none p_bound (heap1 [9765624 - 1 / 1024]) 0%nat 100%Z [1] Hinit)
    as [k [st [Hrun [Hinv [Hk [_ Hfirst]]]]]].
  rewrite read_heap1 in Hinv, Hfirst.
  pose proof (traj1_single p_bound (9765624 - 1 / 1024) 1) as Htr. rewrite p_bound_update in Htr.
  replace ((9765624 - (9765624 - 1 / 1024)) / 9765625) with tol in Htr
    by (rewrite tol_value; field).
  assert (Hk1 : k = 1%nat).
  { assert ((k <= 1)%nat); [| lia].
    apply (first_stop _ _ _ _ _ _ _ Hfirst Htr).
    unfold continue_cond.
    destruct (upd_gt_tol (UArr [tol])) eqn:Hg; [| reflexivity].
    apply upd_gt_tol_single in Hg. rewrite Rabs_pos_eq in Hg; lra. }
  subst k. destruct Hinv as [Hit [Htr' _]]. rewrite Htr in Htr'. injection Htr' as _ Hu.
  exists st, tol. split; [exact Hrun |]. split; [exact Hit |]. split; [congruence |].
  rewrite sum_abs_single. apply Rabs_pos_eq. lra.
Qed.

Lemma f_inv_of_run (p : tanh_params) (h : heap) (zl : loc) (maxit : Z) (yarg : option loc)
  (yl : loc) (st : nr_state) :
  f_inv_run p h zl maxit yarg = Some (inr (yl, st)) ->
  f_inv p h zl maxit yarg = Some (inr (st_heap st, yl, final_log maxit st)).
Proof. intros H. unfold f_inv. rewrite H. reflexivity. Qed.

(** C5 (as corrected): [f_inv] (no [y] given, initial guess formed) always
    returns normally, with the array holding the last iterate.  It prints
    the two diagnostic lines (a fixed warning, then the signed sum of the
    last update array; no iteration count) exactly when the final iteration
    count equals [max_iterations]; for [max_iterations >= 1] this includes
    every stop with the tolerance unmet, but also a stop at the last pass
    where the tolerance is met. *)
Theorem f_inv_diagnostic (p : tanh_params) (h : heap) (zl : loc) (maxit : Z) (y0 : list R) :
  init_guess p (read h zl) = inr y0 ->
  exists st k,
    f_inv p h zl maxit None = Some (inr (st_heap st, next_loc h, final_log maxit st)) /\
    ((st_it st = maxit /\ final_log maxit st = [Print_max_iter; Print_sum_updates (st_update st)])
     \/ (st_it st <> maxit /\ final_log maxit st = [])) /\
    ((1 <= maxit)%Z -> upd_gt_tol (st_update st) = true -> st_it st = maxit) /\
    st_it st = Z.of_nat k /\ (1 <= k)%nat /\
    nr_traj p (read h zl) y0 k = inr (read (st_heap st) (next_loc h), st_update st).
Proof.
  intros Hinit.
  destruct (run_none p h zl maxit y0 Hinit)
    as [k [st [Hrun [[Hit [Htr _]] [Hk [Hstop _]]]]]].
  exists st, k. split; [exact (f_inv_of_run _ _ _ _ _ _ _ Hrun) |].
  split.
  - unfold final_log. destruct (Z.eqb_spec (st_it st) maxit); [left | right]; auto.
  - split; [| split; [exact Hit | split; [lia | exact Htr]]].
    intros Hmax Hgt. unfold loop_cond, continue_cond in Hstop. rewrite Hgt, Hit in Hstop.
    apply Bool.orb_false_iff in Hstop as [_ Hlt]. simpl in Hlt. apply Z.ltb_ge in Hlt. lia.
Qed.

Lemma f_inv_diagnostic_witness :
  init_guess p_edge (read (heap1 [3]) 0%nat) = inr [1] /\
  exists st, f_inv p_edge (heap1 [3]) 0%nat 100%Z None = Some (inr (st_heap st, 1%nat, final_log 100%Z st)).
Proof.
  assert (Hinit : init_guess p_edge (read (heap1 [3]) 0%nat) = inr [1])
    by (rewrite read_heap1; apply init_guess_pos; [reflexivity | lra]).
  split; [exact Hinit |].
  destruct (f_inv_diagnostic p_edge (heap1 [3]) 0%nat 100%Z [1] Hinit) as [st [k [H _]]].
  exists st. exact H.
Defined.

(** C5, counterexample: with [p_edge], [z = 1] and [max_iterations = 1] the
    first update is 0 (the tolerance is met), yet the warning is printed. *)
Lemma f_inv_warns_when_converged_cex :
  exists h' yl u, f_inv p_edge (heap1 [1]) 0%nat 1%Z None =
      Some (inr (h', yl, [Print_max_iter; Print_sum_updates (UArr [u])])) /\
    u = 0 /\ upd_gt_tol (UArr [u]) = false.
Proof.
  assert (Hinit : init_guess p_edge (read (heap1 [1]) 0%nat) = inr [1])
    by (rewrite read_heap1; apply init_guess_pos; [reflexivity | lra]).
  destruct (run_none p_edge (heap1 [1]) 0%nat 1%Z [1] Hinit)
    as [k [st [Hrun [[Hit [Htr _]] [Hk _]]]]].
  assert (k = 1%nat) by (simpl in Hk; lia). subst k.
  rewrite read_heap1, traj1_single, p_edge_update in Htr.
  injection Htr as _ Hu.
  pose proof (f_inv_of_run _ _ _ _ _ _ _ Hrun) as Hf.
  unfold final_log in Hf. rewrite Hit in Hf. simpl in Hf. rewrite <- Hu in Hf.
  exists (st_heap st), (next_loc (heap1 [1])), ((1 - 1) / 2).
  split; [exact Hf |]. split; [field |].
  destruct (upd_gt_tol (UArr [(1 - 1) / 2])) eqn:Hg; [| reflexivity].
  apply upd_gt_tol_single in Hg. pose proof tol_pos.
  replace ((1 - 1) / 2) with 0 in Hg by field. rewrite Rabs_R0 in Hg. lra.
Qed.

(** ** Accuracy of a converged inverse *)

Lemma fold_Rplus_acc (l : list R) (acc : R) : fold_left Rplus l acc = acc + fold_left Rplus l 0.
Proof.
  revert acc. induction l as [| x l IH]; intros acc; simpl; [ring |].
  rewrite (IH (acc + x)), (IH (0 + x)). ring.
Qed.

Lemma fold_Rplus_le (l1 l2 : list R) :
  Forall2 Rle l1 l2 -> fold_left Rplus l1 0 <= fold_left Rplus l2 0.
Proof.
  induction 1 as [| x1 x2 l1 l2 Hx _ IH]; simpl; [lra |].
  rewrite (fold_Rplus_acc l1), (fold_Rplus_acc l2). lra.
Qed.

Lemma jacobian_entry_le (p : tanh_params) (x : R) :
  valid p -> jacobian_entry p x <= d p + sum_ab p.
Proof.
  intros [_ Hts]. unfold jacobian_entry, sum_ab, sum_terms.
  assert (Hc : forall (ts : list term) (g : term -> R),
             combine ts (map g ts) = map (fun t => (t, g t)) ts).
  { intros ts g. induction ts as [| t ts IH]; simpl; [reflexivity | now rewrite IH]. }
  rewrite Hc, map_map. apply Rplus_le_compat_l. apply fold_Rplus_le.
  induction Hts as [| t ts [Ha Hb] _ IH]; simpl; constructor; [| exact IH].
  pose proof (D_entry_pos (tb t * (x + tc t))).
  assert (0 <= tanh (tb t * (x + tc t)) ^ 2) by (apply pow2_ge_0).
  assert (0 < ta t * tb t) by nra. nra.
Qed.

Lemma jacobian_entry_pos (p : tanh_params) (x : R) : valid p -> 0 < jacobian_entry p x.
Proof.
  intros Hv. unfold jacobian_entry. apply sum_terms_pos_jac; [exact Hv |].
  apply Forall_forall. intros v Hin. apply in_map_iff in Hin as [t [<- _]].
  left. apply D_entry_pos.
Qed.

(** The last Newton step of a converged run, one entry. *)
Lemma entry_bound (p : tanh_params) (x yt u : R) :
  valid p -> u = (f_entry p x - f_entry p yt) / jacobian_entry p x -> Rabs u <= tol ->
  Rabs ((x - u) - yt) <= tol * (2 + sum_ab p / d p).
Proof.
  intros Hv Hu Htol.
  pose proof (jacobian_entry_pos p x Hv) as HJ.
  pose proof (jacobian_entry_le p x Hv) as HJle.
  pose proof Hv as [Hd _].
  assert (Hdiff : f_entry p x - f_entry p yt = u * jacobian_entry p x) by (rewrite Hu; field; lra).
  assert (Hslope : d p * Rabs (x - yt) <= Rabs (f_entry p x - f_entry p yt)).
  { destruct (Rle_lt_dec yt x) as [H | H].
    - pose proof (f_entry_slope p yt x Hv H).
      rewrite !Rabs_pos_eq by nra. lra.
    - pose proof (f_entry_slope p x yt Hv (Rlt_le _ _ H)).
      rewrite (Rabs_left (x - yt)) by lra. rewrite Rabs_left1 by nra. lra. }
  rewrite Hdiff, Rabs_mult, (Rabs_pos_eq (jacobian_entry p x)) in Hslope by lra.
  assert (Hx : Rabs (x - yt) <= tol * ((d p + sum_ab p) / d p)).
  { apply (Rmult_le_reg_l (d p)); [exact Hd |].
    replace (d p * (tol * ((d p + sum_ab p) / d p))) with (tol * (d p + sum_ab p)) by (field; lra).
    pose proof (Rabs_pos u). pose proof tol_pos. nra. }
  replace (x - u - yt) with ((x - yt) + - u) by ring.
  eapply Rle_trans; [apply Rabs_triang |]. rewrite Rabs_Ropp.
  replace (tol * (2 + sum_ab p / d p)) with (tol * ((d p + sum_ab p) / d p) + tol) by (field; lra).
  lra.
Qed.

Lemma nth_le_sum_abs (u : list R) (n : nat) : Rabs (nth n u 0) <= sum_abs u.
Proof.
  unfold sum_abs. revert n. induction u as [| x u IH]; intros n.
  - destruct n; simpl; rewrite Rabs_R0; lra.
  - simpl. rewrite fold_Rplus_acc.
    assert (0 <= fold_left Rplus (map Rabs u) 0).
    { apply fold_Rplus_nonneg; [lra |]. apply Forall_forall. intros v Hv.
      apply in_map_iff in Hv as [w [<- _]]. apply Rabs_pos. }
    destruct n as [| n]; [lra |]. specialize (IH n). pose proof (Rabs_pos x). lra.
Qed.

Lemma Forall2_nth (P : R -> R -> Prop) (l1 l2 : list R) :
  length l1 = length l2 -> (forall n, (n < length l1)%nat -> P (nth n l1 0) (nth n l2 0)) ->
  Forall2 P l1 l2.
Proof.
  revert l2. induction l1 as [| x l1 IH]; intros [| y l2] Hl H; simpl in *; try lia; constructor.
  - exact (H 0%nat ltac:(lia)).
  - apply IH; [lia |]. intros n Hn. exact (H (S n) ltac:(lia)).
Qed.

Lemma traj_length (p : tanh_params) (zc y0 : list R) (j : nat) (y : list R) (u : upd_val) :
  length y0 = length zc -> nr_traj p zc y0 j = inr (y, u) -> length y = length zc.
Proof.
  intros Hl. revert y u. induction j as [| j IH]; intros y u Htr.
  - simpl in Htr. injection Htr as <- _. exact Hl.
  - destruct (traj_succ _ _ _ _ _ _ Htr) as [yk [uk [v [Hk [Hs _]]]]].
    exact (proj1 (nr_step_entry p zc yk y v 0 (IH _ _ Hk) Hs)).
Qed.

Lemma run_none_inv (p : tanh_params) (h : heap) (zl : loc) (maxit : Z) (yl : loc) (st : nr_state) :
  f_inv_run p h zl maxit None = Some (inr (yl, st)) ->
  exists y0 k, init_guess p (read h zl) = inr y0 /\ yl = next_loc h /\
    loop_inv p (read h zl) y0 (next_loc h) (snd (alloc h y0)) k st /\ (1 <= k)%nat /\
    loop_cond maxit st = false.
Proof.
  intros Hrun. destruct (init_guess p (read h zl)) as [e | y0] eqn:Hinit.
  - unfold f_inv_run in Hrun. rewrite Hinit in Hrun. discriminate.
  - destruct (run_none p h zl maxit y0 Hinit) as [k [st' [Hrun' [Hinv [Hk [Hstop _]]]]]].
    rewrite Hrun in Hrun'. injection Hrun' as -> ->.
    exists y0, k. refine (conj eq_refl (conj eq_refl (conj Hinv (conj _ Hstop)))). lia.
Qed.

(** C1 (amended): when [f_inv] (called without [y]) stops on the tolerance test,
    i.e. with a final update whose absolute sum is at most [1e-10], on
    [z = f(ys)] for a valid parameter set, every entry of the returned array is
    within [1e-10 * (2 + (sum_i a_i b_i) / d)] of the matching entry of [ys]. *)
Theorem f_inv_converged_accuracy (p : tanh_params) (h : heap) (zl : loc) (maxit : Z)
  (ys : list R) (yl : loc) (st : nr_state) :
  valid p -> read h zl = f p ys ->
  f_inv_run p h zl maxit None = Some (inr (yl, st)) ->
  upd_gt_tol (st_update st) = false ->
  Forall2 (fun r y => Rabs (r - y) <= tol * (2 + sum_ab p / d p)) (read (st_heap st) yl) ys.
Proof.
  intros Hv Hz Hrun Hconv.
  destruct (run_none_inv _ _ _ _ _ _ Hrun) as [y0 [k [Hinit [-> [Hinv [Hk _]]]]]].
  destruct Hinv as [_ [Htr [Hlen _]]].
  destruct k as [| k]; [lia |].
  destruct (traj_succ _ _ _ _ _ _ Htr) as [yk [uk [v [Hk' [Hs Hu]]]]].
  pose proof (init_guess_length _ _ _ Hinit) as Hl0.
  pose proof (traj_length _ _ _ _ _ _ Hl0 Hk') as Hlk.
  rewrite Hu in Hconv. unfold upd_gt_tol in Hconv.
  destruct (Rlt_dec tol (sum_abs v)) as [_ | Hle]; [discriminate |].
  apply Rnot_lt_le in Hle.
  rewrite Hz, f_length in Hlen.
  apply Forall2_nth; [exact Hlen |]. intros n Hn.
  assert (Hnz : (n < length (read h zl))%nat) by (rewrite Hz, f_length; lia).
  destruct (nr_step_entry p (read h zl) yk (read (st_heap st) (next_loc h)) v n Hlk Hs)
    as [_ [_ Hent]].
  destruct (Hent Hnz) as [Hun Hyn]. rewrite Hyn.
  rewrite Hz, f_nth in Hun by (rewrite Hz, f_length in Hnz; exact Hnz).
  apply (entry_bound p (nth n yk 0) (nth n ys 0) (nth n v 0) Hv Hun).
  pose proof (nth_le_sum_abs v n). lra.
Qed.

Lemma p_steep_valid : valid p_steep.
Proof.
  split; simpl; [lra |]. repeat constructor; simpl; lra.
Qed.

Lemma pow_10_11 : 10 ^ 11 = 100000000000.
Proof. simpl. ring. Qed.

(** [f_inv] of [p_steep] on [z = f(2)] stops after one pass, at [1 - u]. *)
Lemma steep_run :
  exists st u, f_inv_run p_steep (heap1 (f p_steep [2])) 0%nat 100%Z None = Some (inr (1%nat, st)) /\
    st_it st = 1%Z /\ st_update st = UArr [u] /\ read (st_heap st) 1%nat = [1 - u] /\
    - 2 / (1 + 10 ^ 11) < u < 0.
Proof.
  set (T := tanh (10 ^ 11 * (2 + -1))).
  assert (Hz : f p_steep [2] = [2 + T]).
  { unfold f. cbn [map]. unfold p_steep. rewrite f_entry_one. cbn [ta tb tc]. unfold T. f_equal. ring. }
  pose proof (tanh_bounds (10 ^ 11 * (2 + -1))) as HT. fold T in HT.
  rewrite Hz.
  assert (Hinit : init_guess p_steep (read (heap1 [2 + T]) 0%nat) = inr [1]).
  { rewrite read_heap1. apply init_guess_pos; [reflexivity | lra]. }
  destruct (run_none p_steep (heap1 [2 + T]) 0%nat 100%Z [1] Hinit)
    as [k [st [Hrun [Hinv [Hk [_ Hfirst]]]]]].
  rewrite read_heap1 in Hinv, Hfirst.
  pose proof (traj1_single p_steep (2 + T) 1) as Htr.
  set (u := (f_entry p_steep 1 - (2 + T)) / jacobian_entry p_steep 1) in Htr.
  assert (Hu : u = - (1 + T) / (1 + 10 ^ 11)).
  { unfold u, p_steep. rewrite f_entry_one, jacobian_entry_one. cbn [ta tb tc].
    replace (10 ^ 11 * (1 + -1)) with 0 by ring. rewrite tanh_0.
    rewrite pow_10_11. field. }
  assert (Hb : - 2 / (1 + 10 ^ 11) < u < 0).
  { rewrite Hu, pow_10_11. set (q := (1 + T) / (1 + 100000000000)).
    assert (Hq : q * (1 + 100000000000) = 1 + T) by (unfold q; field; lra).
    replace (- (1 + T) / (1 + 100000000000)) with (- q) by (unfold q; field; lra).
    replace (- 2 / (1 + 100000000000)) with (- (2 / (1 + 100000000000))) by (field; lra).
    set (r := 2 / (1 + 100000000000)).
    assert (Hr : r * (1 + 100000000000) = 2) by (unfold r; field; lra).
    lra. }
  assert (Hsmall : Rabs u < tol).
  { rewrite Rabs_left by lra. rewrite tol_value.
    destruct Hb as [Hb _]. rewrite pow_10_11 in Hb.
    set (r := 2 / (1 + 100000000000)) in Hb.
    assert (Hr : r * (1 + 100000000000) = 2) by (unfold r; field; lra).
    lra. }
  assert (Hk1 : k = 1%nat).
  { assert ((k <= 1)%nat); [| lia].
    apply (first_stop _ _ _ _ _ _ _ Hfirst Htr).
    unfold continue_cond.
    destruct (upd_gt_tol (UArr [u])) eqn:Hg; [| reflexivity].
    apply upd_gt_tol_single in Hg. lra. }
  subst k. destruct Hinv as [Hit [Htr' _]]. rewrite Htr in Htr'. injection Htr' as Hy Hup.
  exists st, u. split; [exact Hrun |]. split; [exact Hit |]. split; [congruence |].
  split; [congruence | exact Hb].
Qed.

(** Counterexample to C1: [a = 1], [b = 10^11], [c = -1], [d = 1] and
    [y = 2] (in [[-5, 5]]).  On [z = f(2)] the first Newton step from the
    initial guess [1] is already below the tolerance, so [f_inv] stops
    after one pass with an array about [1] away from [2]. *)
Lemma f_inv_roundtrip_cex :
  valid p_steep /\ -5 <= 2 <= 5 /\
  exists st u yv, f_inv_run p_steep (heap1 (f p_steep [2])) 0%nat 100%Z None = Some (inr (1%nat, st)) /\
    (st_it st < 100)%Z /\ st_update st = UArr [u] /\ sum_abs [u] < tol /\
    read (st_heap st) 1%nat = [yv] /\ 1 / 10 ^ 6 < Rabs (yv - 2).
Proof.
  split; [exact p_steep_valid |]. split; [lra |].
  destruct steep_run as [st [u [Hrun [Hit [Hup [Hy Hb]]]]]].
  rewrite pow_10_11 in Hb.
  set (r := 2 / (1 + 100000000000)) in Hb.
  assert (Hr : r * (1 + 100000000000) = 2) by (unfold r; field; lra).
  exists st, u, (1 - u). split; [exact Hrun |]. split; [rewrite Hit; lia |].
  split; [exact Hup |]. split.
  - rewrite sum_abs_single, Rabs_left by lra. rewrite tol_value. lra.
  - split; [exact Hy |]. rewrite Rabs_left by lra. simpl. lra.
Qed.

(** The amended C1 theorem applied to the same run. *)
Lemma f_inv_converged_accuracy_witness :
  exists st, f_inv_run p_steep (heap1 (f p_steep [2])) 0%nat 100%Z None = Some (inr (1%nat, st)) /\
    upd_gt_tol (st_update st) = false /\
    Forall2 (fun r y => Rabs (r - y) <= tol * (2 + sum_ab p_steep / d p_steep))
      (read (st_heap st) 1%nat) [2].
Proof.
  destruct steep_run as [st [u [Hrun [_ [Hup [_ Hb]]]]]].
  assert (Hg : upd_gt_tol (st_update st) = false).
  { rewrite Hup. destruct (upd_gt_tol (UArr [u])) eqn:Hg; [| reflexivity].
    apply upd_gt_tol_single in Hg. rewrite Rabs_left in Hg by lra.
    rewrite tol_value, pow_10_11 in *.
    set (r := 2 / (1 + 100000000000)) in Hb.
    assert (Hr : r * (1 + 100000000000) = 2) by (unfold r; field; lra). lra. }
  exists st. split; [exact Hrun |]. split; [exact Hg |].
  exact (f_inv_converged_accuracy p_steep (heap1 (f p_steep [2])) 0%nat 100%Z [2] 1%nat st
           p_steep_valid (read_heap1 _) Hrun Hg).
Defined.

(** [f_inv] of [p_unit] on [z = 0]: the initial guess is [-1], the first
    update is at least [1/2] in size, and the loop runs at least two passes. *)
Lemma unit_run :
  init_guess p_unit [0] = inr [-1] /\
  (exists u, nr_traj p_unit [0] [-1] 1 = inr ([-1 - u], UArr [u]) /\ 1 / 2 <= Rabs u) /\
  exists st, f_inv_run p_unit (heap1 [0]) 0%nat 100%Z None = Some (inr (1%nat, st)) /\
    (2 <= st_it st <= 100)%Z.
Proof.
  assert (Hinit : init_guess p_unit [0] = inr [-1]) by (apply init_guess_nonpos; [reflexivity | lra]).
  pose proof (traj1_single p_unit 0 (-1)) as Htr.
  set (u := (f_entry p_unit (-1) - 0) / jacobian_entry p_unit (-1)) in Htr.
  assert (Hu : 1 / 2 <= Rabs u).
  { set (t := tanh (1 * (-1 + 0))).
    assert (Ht : t < 0).
    { unfold t. rewrite <- tanh_0 at 2. apply tanh_lt. lra. }
    pose proof (tanh_bounds (1 * (-1 + 0))) as Hb. fold t in Hb.
    assert (HD : 0 < 1 + 1 * 1 * (1 - t ^ 2)) by nra.
    assert (Hq : u * (1 + 1 * 1 * (1 - t ^ 2)) = 1 * -1 + 1 * t).
    { unfold u, p_unit. rewrite f_entry_one, jacobian_entry_one. cbn [ta tb tc].
      fold t. field. lra. }
    assert (Hneg : u <= - (1 / 2)).
    { destruct (Rle_or_lt u (- (1 / 2))) as [H | H]; [exact H |].
      assert (0 < (u + 1 / 2) * (1 + 1 * 1 * (1 - t ^ 2))) by (apply Rmult_lt_0_compat; lra).
      assert (0 < t * t) by nra. nra. }
    rewrite Rabs_left by lra. lra. }
  split; [exact Hinit |]. split; [exists u; split; [exact Htr | exact Hu] |].
  assert (Hinit' : init_guess p_unit (read (heap1 [0]) 0%nat) = inr [-1]) by exact Hinit.
  destruct (run_none p_unit (heap1 [0]) 0%nat 100%Z [-1] Hinit')
    as [k [st [Hrun [Hinv [Hk [Hstop _]]]]]].
  rewrite read_heap1 in Hinv.
  exists st. split; [exact Hrun |].
  destruct Hinv as [Hit [Htr' _]]. rewrite Hit.
  assert (Hk2 : (2 <= k)%nat).
  { destruct (Nat.eq_dec k 1) as [-> | Hne]; [| lia].
    rewrite Htr in Htr'. injection Htr' as _ Hup.
    unfold loop_cond, continue_cond in Hstop. rewrite Hit, <- Hup in Hstop.
    assert (Hg : upd_gt_tol (UArr [u]) = true) by (apply upd_gt_tol_single; rewrite tol_value; lra).
    rewrite Hg in Hstop. discriminate. }
  simpl in Hk. lia.
Qed.

(** Counterexample to C8: with one term [a = b = 1], [c = 0], [d = 1] and no
    hint, [f_inv] on [z = 0] does not stop after one iteration. *)
Lemma f_inv_one_iteration_cex :
  exists st, f_inv_run p_unit (heap1 [0]) 0%nat 100%Z None = Some (inr (1%nat, st)) /\
    (2 <= st_it st)%Z.
Proof.
  destruct unit_run as [_ [_ [st [Hrun Hit]]]]. exists st. split; [exact Hrun | lia].
Qed.



(** Counterexample to C9: a fresh instance with one term has [c = 1], not [0]. *)
Lemma tanh_init_c_cex :
  exists t, TanhFunction_init 1%Z None = inr (mk_params [t] 1 None) /\ tc t = 1 /\ tc t <> 0.
Proof.
  exists (mk_term 1 1 1). split; [reflexivity |]. simpl. split; [reflexivity | lra].
Qed.

(** C9 (amended): for every positive number of terms [n], a fresh
    [TanhFunction] has [n] terms, each with [a = b = c = 1], and [d = 1];
    with [n <= 0] the constructor raises [ValueError]. *)
Theorem tanh_init_params (n : nat) (iy : option (list R)) :
  TanhFunction_init (Z.of_nat (S n)) iy = inr (mk_params (repeat (mk_term 1 1 1) (S n)) 1 iy) /\
  (forall t, In t (repeat (mk_term 1 1 1) (S n)) -> ta t = 1 /\ tb t = 1 /\ tc t = 1) /\
  (forall m, (m <= 0)%Z -> TanhFunction_init m iy = inl ValueError).
Proof.
  split; [| split].
  - unfold TanhFunction_init. destruct (Z.leb_spec (Z.of_nat (S n)) 0) as [H | _]; [lia |].
    rewrite Nat2Z.id. reflexivity.
  - intros t Ht. apply repeat_spec in Ht. subst t. simpl. auto.
  - intros m Hm. unfold TanhFunction_init. destruct (Z.leb_spec m 0); [reflexivity | lia].
Qed.

(** ** Derivatives *)

Lemma D_ext (f g : R -> R) (x l : R) :
  (forall v, f v = g v) -> derivable_pt_lim f x l -> derivable_pt_lim g x l.
Proof.
  intros Hfg H eps Heps. destruct (H eps Heps) as [del Hd]. exists del.
  intros h Hh Hlt. rewrite <- !Hfg. apply Hd; assumption.
Qed.

Lemma D_val (f : R -> R) (x l1 l2 : R) :
  l1 = l2 -> derivable_pt_lim f x l1 -> derivable_pt_lim f x l2.
Proof. intros <-. exact (fun H => H). Qed.

Lemma D_const (c x : R) : derivable_pt_lim (fun _ => c) x 0.
Proof. exact (derivable_pt_lim_const c x). Qed.

Lemma D_id (x : R) : derivable_pt_lim (fun v => v) x 1.
Proof. exact (derivable_pt_lim_id x). Qed.

Lemma D_plus (f g : R -> R) (x a b : R) :
  derivable_pt_lim f x a -> derivable_pt_lim g x b ->
  derivable_pt_lim (fun v => f v + g v) x (a + b).
Proof. exact (derivable_pt_lim_plus f g x a b). Qed.

Lemma D_minus (f g : R -> R) (x a b : R) :
  derivable_pt_lim f x a -> derivable_pt_lim g x b ->
  derivable_pt_lim (fun v => f v - g v) x (a - b).
Proof. exact (derivable_pt_lim_minus f g x a b). Qed.

Lemma D_mult (f g : R -> R) (x a b : R) :
  derivable_pt_lim f x a -> derivable_pt_lim g x b ->
  derivable_pt_lim (fun v => f v * g v) x (a * g x + f x * b).
Proof. exact (derivable_pt_lim_mult f g x a b). Qed.

Lemma D_comp (f g : R -> R) (x a b : R) :
  derivable_pt_lim g x a -> derivable_pt_lim f (g x) b ->
  derivable_pt_lim (fun v => f (g v)) x (b * a).
Proof. exact (derivable_pt_lim_comp g f x a b). Qed.

Lemma D_tanh (x : R) : derivable_pt_lim tanh x (sech x ^ 2).
Proof.
  pose proof (cosh_pos x) as Hc.
  pose proof (derivable_pt_lim_div sinh cosh x (cosh x) (sinh x)
                (derivable_pt_lim_sinh x) (derivable_pt_lim_cosh x) ltac:(lra)) as H.
  eapply D_val; [| exact H].
  rewrite <- one_minus_tanh2. unfold tanh, Rsqr. field. lra.
Qed.

Lemma D_tanh_comp (g : R -> R) (x a : R) :
  derivable_pt_lim g x a -> derivable_pt_lim (fun v => tanh (g v)) x (sech (g x) ^ 2 * a).
Proof. intros Hg. exact (D_comp tanh g x a _ Hg (D_tanh (g x))). Qed.

Lemma D_sq (f : R -> R) (x a : R) :
  derivable_pt_lim f x a -> derivable_pt_lim (fun v => f v ^ 2) x (2 * f x * a).
Proof.
  intros Hf. apply (D_ext (fun v => f v * f v)); [intros v; ring |].
  eapply D_val; [| exact (D_mult f f x a a Hf Hf)]. cbv beta. ring.
Qed.

(** [v -> k * (v + c)] and [v -> k * (c + v)]. *)
Lemma D_lin (k c x : R) : derivable_pt_lim (fun v => k * (v + c)) x k.
Proof.
  eapply D_val; [| exact (D_mult _ _ x _ _ (D_const k x) (D_plus _ _ x _ _ (D_id x) (D_const c x)))].
  cbv beta. ring.
Qed.

Lemma D_lin_r (k c x : R) : derivable_pt_lim (fun v => k * (c + v)) x k.
Proof.
  eapply D_val; [| exact (D_mult _ _ x _ _ (D_const k x) (D_plus _ _ x _ _ (D_const c x) (D_id x)))].
  cbv beta. ring.
Qed.

(** One summand [a * tanh(b * (y + c))] as a function of [y]. *)
Lemma D_term_y (t : term) (x : R) :
  derivable_pt_lim (fun y => ta t * tanh (tb t * (y + tc t))) x
    (ta t * tb t * (1 - tanh (tb t * (x + tc t)) ^ 2)).
Proof.
  pose proof (D_tanh_comp _ x _ (D_lin (tb t) (tc t) x)) as H.
  eapply D_val; [| exact (D_mult _ _ x _ _ (D_const (ta t) x) H)].
  cbv beta. rewrite one_minus_tanh2. ring.
Qed.

Lemma fold_add_shift (F : term -> R) (ts : list term) (acc : R) :
  fold_left (fun a t => a + F t) ts acc = acc + fold_left (fun a t => a + F t) ts 0.
Proof.
  revert acc. induction ts as [| t ts IH]; intros acc; simpl; [ring |].
  rewrite (IH (acc + F t)), (IH (0 + F t)). ring.
Qed.

Lemma fold_add_replace (F : term -> R) (ts : list term) (i : nat) (t' : term) (acc : R) :
  (i < length ts)%nat ->
  fold_left (fun a t => a + F t) (replace_nth i t' ts) acc =
  fold_left (fun a t => a + F t) ts acc - F (nth i ts term0) + F t'.
Proof.
  revert i acc. induction ts as [| t ts IH]; intros i acc Hi; simpl in Hi; [lia |].
  destruct i as [| i]; simpl.
  - rewrite (fold_add_shift F ts (acc + F t')), (fold_add_shift F ts (acc + F t)). ring.
  - apply IH. lia.
Qed.

Lemma sum_terms_fold (g : term -> R) (ts : list term) (acc : R) :
  acc + sum_terms ts (map g ts) = fold_left (fun a t => a + ta t * tb t * g t) ts acc.
Proof.
  unfold sum_terms. revert acc. induction ts as [| t ts IH]; intros acc; simpl; [ring |].
  rewrite fold_Rplus_acc, <- IH. ring.
Qed.

Lemma f_entry_fold (p : tanh_params) (y : R) :
  f_entry p y = fold_left (fun a t => a + ta t * tanh (tb t * (y + tc t))) (psi p) (d p * y).
Proof. reflexivity. Qed.

Lemma jacobian_entry_fold (p : tanh_params) (y : R) :
  jacobian_entry p y =
  fold_left (fun a t => a + ta t * tb t * (1 - tanh (tb t * (y + tc t)) ^ 2)) (psi p) (d p).
Proof. unfold jacobian_entry. rewrite sum_terms_fold. reflexivity. Qed.

Lemma fold_terms_deriv (ts : list term) (g : R -> R) (g' x : R) :
  derivable_pt_lim g x g' ->
  derivable_pt_lim (fun y => fold_left (fun a t => a + ta t * tanh (tb t * (y + tc t))) ts (g y)) x
    (fold_left (fun a t => a + ta t * tb t * (1 - tanh (tb t * (x + tc t)) ^ 2)) ts g').
Proof.
  revert g g'. induction ts as [| t ts IH]; intros g g' Hg; simpl; [exact Hg |].
  apply (IH (fun y => g y + ta t * tanh (tb t * (y + tc t)))).
  exact (D_plus _ _ x _ _ Hg (D_term_y t x)).
Qed.

Lemma nth_error_split (l : list term) (i : nat) (t : term) :
  nth_error l i = Some t -> (i < length l)%nat /\ nth i l term0 = t.
Proof.
  intros H. split.
  - apply nth_error_Some. congruence.
  - apply nth_error_nth. exact H.
Qed.

Lemma f_entry_set_term (p : tanh_params) (i : nat) (t' : term) (y : R) :
  (i < length (psi p))%nat ->
  f_entry (set_term p i t') y =
  f_entry p y - ta (nth i (psi p) term0) * tanh (tb (nth i (psi p) term0) * (y + tc (nth i (psi p) term0)))
  + ta t' * tanh (tb t' * (y + tc t')).
Proof.
  intros Hi. rewrite !f_entry_fold.
  exact (fold_add_replace (fun t => ta t * tanh (tb t * (y + tc t))) (psi p) i t' (d p * y) Hi).
Qed.

Lemma jacobian_entry_set_term (p : tanh_params) (i : nat) (t' : term) (y : R) :
  (i < length (psi p))%nat ->
  jacobian_entry (set_term p i t') y =
  jacobian_entry p y
  - ta (nth i (psi p) term0) * tb (nth i (psi p) term0)
    * (1 - tanh (tb (nth i (psi p) term0) * (y + tc (nth i (psi p) term0))) ^ 2)
  + ta t' * tb t' * (1 - tanh (tb t' * (y + tc t')) ^ 2).
Proof.
  intros Hi. rewrite !jacobian_entry_fold.
  exact (fold_add_replace (fun t => ta t * tb t * (1 - tanh (tb t * (y + tc t)) ^ 2))
           (psi p) i t' (d p) Hi).
Qed.

Lemma f_entry_set_d (p : tanh_params) (v y : R) :
  f_entry (set_d p v) y = v * y + (f_entry p y - d p * y).
Proof.
  rewrite !f_entry_fold. cbn [psi d set_d].
  rewrite (fold_add_shift _ _ (v * y)), (fold_add_shift _ _ (d p * y)). ring.
Qed.

Lemma jacobian_entry_set_d (p : tanh_params) (v y : R) :
  jacobian_entry (set_d p v) y = v + (jacobian_entry p y - d p).
Proof. unfold jacobian_entry. cbn [psi d set_d]. ring. Qed.

Lemma fgrad_y_psi_chain_inv (p : tanh_params) (y : list R) (G C : tensor) (n i : nat) (t : term) :
  fgrad_y_psi p y true = inr (GradsChain G C) -> (n < length y)%nat ->
  nth_error (psi p) i = Some t ->
  nth i (nth n C []) q0 = spec_chain_entry t i (nth n y 0).
Proof.
  intros Hout Hn Hi.
  destruct (fgrad_y_psi_out_spec p y true _ Hout) as [_ [_ [_ HC]]].
  exact (proj2 (HC n Hn) i t Hi).
Qed.

Lemma fgrad_y_psi_grads_inv (p : tanh_params) (y : list R) (G : tensor) (n i : nat) (t : term) :
  fgrad_y_psi p y false = inr (Grads G) -> (n < length y)%nat ->
  nth_error (psi p) i = Some t ->
  nth i (nth n G []) q0 = spec_grad_entry t i (nth n y 0).
Proof.
  intros Hout Hn Hi.
  destruct (fgrad_y_psi_out_spec p y false _ Hout) as [_ [_ HG]].
  exact (proj2 (HG n Hn) i t Hi).
Qed.

(** Close [derivable_pt_lim F x l] from a derivative of [F] whose value is
    [l] up to ring. *)
Ltac d_by H := eapply D_val; [| exact H]; cbv beta; try ring.

(** [fgrad_y] is the derivative of [f]: entry [n] of [fgrad_y(y)] is the
    derivative of [f] at [y_n], for every parameter set. *)
Theorem fgrad_y_derivative (p : tanh_params) (y : list R) (n : nat) :
  (n < length y)%nat -> derivable_pt_lim (f_entry p) (nth n y 0) (nth n (fgrad_y p y) 0).
Proof.
  intros Hn. rewrite fgrad_y_nth by exact Hn. rewrite jacobian_entry_fold.
  apply (D_ext (fun v => fold_left (fun a t => a + ta t * tanh (tb t * (v + tc t))) (psi p) (d p * v)));
    [intros v; reflexivity |].
  apply fold_terms_deriv.
  d_by (D_mult _ _ (nth n y 0) _ _ (D_const (d p) (nth n y 0)) (D_id (nth n y 0))).
Qed.

Lemma fgrad_y_derivative_witness :
  (0 < length [0; 1])%nat /\
  derivable_pt_lim (f_entry p_unit) (nth 0 [0; 1] 0) (nth 0 (fgrad_y p_unit [0; 1]) 0).
Proof. split; [simpl; lia | apply fgrad_y_derivative; simpl; lia]. Defined.

(** The covariance chain of [fgrad_y_psi] holds the partial derivatives of
    [f(y_n)] in the parameters: entry [(n, i)] has in its a-, b- and
    c-columns the derivatives in [a_i], [b_i] and [c_i], and entry [(n, 0)]
    has in its d-column the derivative in [d]. *)
Theorem chain_partial_derivatives (p : tanh_params) (y : list R) (G C : tensor) (n i : nat) (t : term) :
  fgrad_y_psi p y true = inr (GradsChain G C) -> (n < length y)%nat ->
  nth_error (psi p) i = Some t ->
  derivable_pt_lim (fun v => f_entry (set_term p i (mk_term v (tb t) (tc t))) (nth n y 0))
    (ta t) (qa (nth i (nth n C []) q0)) /\
  derivable_pt_lim (fun v => f_entry (set_term p i (mk_term (ta t) v (tc t))) (nth n y 0))
    (tb t) (qb (nth i (nth n C []) q0)) /\
  derivable_pt_lim (fun v => f_entry (set_term p i (mk_term (ta t) (tb t) v)) (nth n y 0))
    (tc t) (qc (nth i (nth n C []) q0)) /\
  derivable_pt_lim (fun v => f_entry (set_d p v) (nth n y 0)) (d p) (qd (nth 0 (nth n C []) q0)).
Proof.
  intros Hout Hn Hi.
  destruct (nth_error_split _ _ _ Hi) as [Hlt Hnth].
  assert (H0 : exists t0, nth_error (psi p) 0 = Some t0).
  { destruct (psi p) as [| t0 ts]; [simpl in Hlt; lia | exists t0; reflexivity]. }
  destruct H0 as [t0 H0].
  rewrite (fgrad_y_psi_chain_inv p y G C n i t Hout Hn Hi).
  rewrite (fgrad_y_psi_chain_inv p y G C n 0 t0 Hout Hn H0).
  set (yn := nth n y 0).
  set (K := f_entry p yn - ta t * tanh (tb t * (yn + tc t))).
  unfold spec_chain_entry. cbv zeta. cbn [qa qb qc qd Nat.eqb].
  repeat split.
  - apply (D_ext (fun v => K + v * tanh (tb t * (yn + tc t)))).
    { intros v. rewrite f_entry_set_term by exact Hlt. rewrite Hnth. unfold K. cbn [ta tb tc]. ring. }
    d_by (D_plus _ _ (ta t) _ _ (D_const K (ta t))
            (D_mult _ _ (ta t) _ _ (D_id (ta t)) (D_const (tanh (tb t * (yn + tc t))) (ta t)))).
  - apply (D_ext (fun v => K + ta t * tanh (v * (yn + tc t)))).
    { intros v. rewrite f_entry_set_term by exact Hlt. rewrite Hnth. unfold K. cbn [ta tb tc]. ring. }
    pose proof (D_tanh_comp _ (tb t) _
                  (D_mult _ _ (tb t) _ _ (D_id (tb t)) (D_const (yn + tc t) (tb t)))) as Ht.
    d_by (D_plus _ _ (tb t) _ _ (D_const K (tb t)) (D_mult _ _ (tb t) _ _ (D_const (ta t) (tb t)) Ht)).
  - apply (D_ext (fun v => K + ta t * tanh (tb t * (yn + v)))).
    { intros v. rewrite f_entry_set_term by exact Hlt. rewrite Hnth. unfold K. cbn [ta tb tc]. ring. }
    pose proof (D_tanh_comp _ (tc t) _ (D_lin_r (tb t) yn (tc t))) as Ht.
    d_by (D_plus _ _ (tc t) _ _ (D_const K (tc t)) (D_mult _ _ (tc t) _ _ (D_const (ta t) (tc t)) Ht)).
  - apply (D_ext (fun v => v * yn + (f_entry p yn - d p * yn))).
    { intros v. rewrite f_entry_set_d. reflexivity. }
    d_by (D_plus _ _ (d p) _ _ (D_mult _ _ (d p) _ _ (D_id (d p)) (D_const yn (d p)))
            (D_const (f_entry p yn - d p * yn) (d p))).
Qed.

Lemma chain_partial_derivatives_witness :
  exists G C, fgrad_y_psi p_unit [0] true = inr (GradsChain G C) /\
    derivable_pt_lim (fun v => f_entry (set_term p_unit 0 (mk_term v 1 0)) 0) 1
      (qa (nth 0 (nth 0 C []) q0)).
Proof.
  eexists; eexists. split; [reflexivity |].
  exact (proj1 (chain_partial_derivatives p_unit [0] _ _ 0 0 (mk_term 1 1 0)
                  eq_refl ltac:(simpl; lia) eq_refl)).
Defined.

(** [fgrad_y_psi]'s gradient tensor holds the partial derivatives of the
    Jacobian [fgrad_y(y)_n] in the parameters: entry [(n, i)] has in its a-,
    b- and c-columns the derivatives in [a_i], [b_i] and [c_i], and entry
    [(n, 0)] has in its d-column the derivative in [d]. *)
Theorem grads_partial_derivatives (p : tanh_params) (y : list R) (G : tensor) (n i : nat) (t : term) :
  fgrad_y_psi p y false = inr (Grads G) -> (n < length y)%nat ->
  nth_error (psi p) i = Some t ->
  derivable_pt_lim (fun v => nth n (fgrad_y (set_term p i (mk_term v (tb t) (tc t))) y) 0)
    (ta t) (qa (nth i (nth n G []) q0)) /\
  derivable_pt_lim (fun v => nth n (fgrad_y (set_term p i (mk_term (ta t) v (tc t))) y) 0)
    (tb t) (qb (nth i (nth n G []) q0)) /\
  derivable_pt_lim (fun v => nth n (fgrad_y (set_term p i (mk_term (ta t) (tb t) v)) y) 0)
    (tc t) (qc (nth i (nth n G []) q0)) /\
  derivable_pt_lim (fun v => nth n (fgrad_y (set_d p v) y) 0) (d p) (qd (nth 0 (nth n G []) q0)).
Proof.
  intros Hout Hn Hi.
  destruct (nth_error_split _ _ _ Hi) as [Hlt Hnth].
  assert (H0 : exists t0, nth_error (psi p) 0 = Some t0).
  { destruct (psi p) as [| t0 ts]; [simpl in Hlt; lia | exists t0; reflexivity]. }
  destruct H0 as [t0 H0].
  rewrite (fgrad_y_psi_grads_inv p y G n i t Hout Hn Hi).
  rewrite (fgrad_y_psi_grads_inv p y G n 0 t0 Hout Hn H0).
  set (yn := nth n y 0).
  set (K := jacobian_entry p yn - ta t * tb t * (1 - tanh (tb t * (yn + tc t)) ^ 2)).
  unfold spec_grad_entry. cbv zeta. cbn [qa qb qc qd Nat.eqb].
  repeat split.
  - apply (D_ext (fun v => K + v * tb t * (1 - tanh (tb t * (yn + tc t)) ^ 2))).
    { intros v. rewrite fgrad_y_nth, jacobian_entry_set_term by assumption.
      rewrite Hnth. unfold K, yn. cbn [ta tb tc]. ring. }
    pose proof (D_mult _ _ (ta t) _ _ (D_id (ta t)) (D_const (tb t) (ta t))) as Hab.
    d_by (D_plus _ _ (ta t) _ _ (D_const K (ta t))
            (D_mult _ _ (ta t) _ _ Hab (D_const (1 - tanh (tb t * (yn + tc t)) ^ 2) (ta t)))).
    all: rewrite ?one_minus_tanh2; ring.
  - apply (D_ext (fun v => K + ta t * v * (1 - tanh (v * (yn + tc t)) ^ 2))).
    { intros v. rewrite fgrad_y_nth, jacobian_entry_set_term by assumption.
      rewrite Hnth. unfold K, yn. cbn [ta tb tc]. ring. }
    pose proof (D_tanh_comp _ (tb t) _
                  (D_mult _ _ (tb t) _ _ (D_id (tb t)) (D_const (yn + tc t) (tb t)))) as Ht.
    pose proof (D_minus _ _ (tb t) _ _ (D_const 1 (tb t)) (D_sq _ (tb t) _ Ht)) as HD.
    pose proof (D_mult _ _ (tb t) _ _ (D_const (ta t) (tb t)) (D_id (tb t))) as Hab.
    d_by (D_plus _ _ (tb t) _ _ (D_const K (tb t)) (D_mult _ _ (tb t) _ _ Hab HD)).
    all: rewrite ?one_minus_tanh2; ring.
  - apply (D_ext (fun v => K + ta t * tb t * (1 - tanh (tb t * (yn + v)) ^ 2))).
    { intros v. rewrite fgrad_y_nth, jacobian_entry_set_term by assumption.
      rewrite Hnth. unfold K, yn. cbn [ta tb tc]. ring. }
    pose proof (D_tanh_comp _ (tc t) _ (D_lin_r (tb t) yn (tc t))) as Ht.
    pose proof (D_minus _ _ (tc t) _ _ (D_const 1 (tc t)) (D_sq _ (tc t) _ Ht)) as HD.
    d_by (D_plus _ _ (tc t) _ _ (D_const K (tc t))
            (D_mult _ _ (tc t) _ _ (D_const (ta t * tb t) (tc t)) HD)).
  - apply (D_ext (fun v => v + (jacobian_entry p yn - d p))).
    { intros v. rewrite fgrad_y_nth by assumption. rewrite jacobian_entry_set_d. reflexivity. }
    d_by (D_plus _ _ (d p) _ _ (D_id (d p)) (D_const (jacobian_entry p yn - d p) (d p))).
Qed.

Lemma grads_partial_derivatives_witness :
  exists G, fgrad_y_psi p_unit [0] false = inr (Grads G) /\
    derivable_pt_lim (fun v => nth 0 (fgrad_y (set_d p_unit v) [0]) 0) 1
      (qd (nth 0 (nth 0 G []) q0)).
Proof.
  eexists. split; [reflexivity |].
  exact (proj2 (proj2 (proj2 (grads_partial_derivatives p_unit [0] _ 0 0 (mk_term 1 1 0)
                                eq_refl ltac:(simpl; lia) eq_refl)))).
Defined.

Lemma fold_tanh_bound (ts : list term) (y : R) :
  Rabs (fold_left (fun a t => a + ta t * tanh (tb t * (y + tc t))) ts 0)
  <= fold_left (fun s t => s + Rabs (ta t)) ts 0.
Proof.
  induction ts as [| t ts IH]; simpl; [rewrite Rabs_R0; lra |].
  rewrite (fold_add_shift _ ts (0 + _)), (fold_add_shift (fun t => Rabs (ta t)) ts (0 + _)).
  eapply Rle_trans; [apply Rabs_triang |].
  assert (Rabs (0 + ta t * tanh (tb t * (y + tc t))) <= 0 + Rabs (ta t)).
  { rewrite !Rplus_0_l, Rabs_mult.
    pose proof (tanh_bounds (tb t * (y + tc t))) as Hb.
    assert (Rabs (tanh (tb t * (y + tc t))) <= 1) by (apply Rabs_le; lra).
    pose proof (Rabs_pos (ta t)). nra. }
  lra.
Qed.

Lemma abs_le_split (x a : R) : Rabs x <= a -> - a <= x <= a.
Proof.
  intros H. pose proof (Rle_abs x). pose proof (Rle_abs (- x)) as H'.
  rewrite Rabs_Ropp in H'. lra.
Qed.

Lemma sum_abs_a_nonneg (p : tanh_params) : 0 <= sum_abs_a p.
Proof.
  unfold sum_abs_a. induction (psi p) as [| t ts IH]; simpl; [lra |].
  rewrite (fold_add_shift (fun t => Rabs (ta t)) ts (0 + _)). pose proof (Rabs_pos (ta t)). lra.
Qed.

Lemma f_entry_deriv (p : tanh_params) (x : R) :
  derivable_pt_lim (f_entry p) x (jacobian_entry p x).
Proof.
  rewrite jacobian_entry_fold.
  apply (D_ext (fun v => fold_left (fun a t => a + ta t * tanh (tb t * (v + tc t))) (psi p) (d p * v)));
    [intros v; reflexivity |].
  apply fold_terms_deriv.
  d_by (D_mult _ _ x _ _ (D_const (d p) x) (D_id x)).
Qed.

(** [f] stays within [sum_i |a_i|] of the line [d * y]: every entry of
    [f(y)] differs from [d * y_n] by at most [sum_i |a_i|]. *)
Theorem f_near_linear (p : tanh_params) (y : list R) :
  Forall2 (fun z yn => Rabs (z - d p * yn) <= sum_abs_a p) (f p y) y.
Proof.
  induction y as [| yn y IH]; simpl; constructor; [| exact IH].
  rewrite f_entry_fold, fold_add_shift.
  replace (d p * yn + _ - d p * yn)
    with (fold_left (fun a t => a + ta t * tanh (tb t * (yn + tc t))) (psi p) 0) by ring.
  apply fold_tanh_bound.
Qed.

(** For a valid parameter set, [f] is a bijection of the reals: every
    target [z] has exactly one [y] with [f(y) = z], so the root that
    [f_inv] searches for always exists and is unique. *)
Theorem f_bijective (p : tanh_params) (z : R) :
  valid p -> exists y, f p [y] = [z] /\ forall y', f p [y'] = [z] -> y' = y.
Proof.
  intros Hv. pose proof Hv as [Hd _].
  set (A := sum_abs_a p). pose proof (sum_abs_a_nonneg p) as HA. fold A in HA.
  set (g := fun v => f_entry p v - z).
  assert (Hc : continuity g).
  { intros x. apply derivable_continuous_pt.
    exists (jacobian_entry p x - 0).
    exact (D_minus _ _ x _ _ (f_entry_deriv p x) (D_const z x)). }
  set (lo := (z - A - 1) / d p). set (hi := (z + A + 1) / d p).
  assert (Hbound : forall v, Rabs (f_entry p v - d p * v) <= A).
  { intros v. unfold A, sum_abs_a. rewrite f_entry_fold, fold_add_shift.
    replace (d p * v + _ - d p * v)
      with (fold_left (fun a t => a + ta t * tanh (tb t * (v + tc t))) (psi p) 0) by ring.
    apply fold_tanh_bound. }
  assert (Hlo : g lo < 0).
  { unfold g. pose proof (Hbound lo) as H. apply abs_le_split in H.
    replace (d p * lo) with (z - A - 1) in H by (unfold lo; field; lra). lra. }
  assert (Hhi : 0 < g hi).
  { unfold g. pose proof (Hbound hi) as H. apply abs_le_split in H.
    replace (d p * hi) with (z + A + 1) in H by (unfold hi; field; lra). lra. }
  assert (Hlh : lo < hi).
  { unfold lo, hi. unfold Rdiv. apply Rmult_lt_compat_r; [apply Rinv_0_lt_compat; lra | lra]. }
  destruct (IVT g lo hi Hc Hlh Hlo Hhi) as [y [_ Hy]].
  exists y. unfold g in Hy. split.
  - unfold f. simpl. f_equal. lra.
  - intros y' Hy'. unfold f in Hy'. simpl in Hy'. injection Hy' as Hy'.
    destruct (Rtotal_order y' y) as [H | [H | H]]; [| exact H |].
    + pose proof (f_entry_lt p y' y Hv H). lra.
    + pose proof (f_entry_lt p y y' Hv H). lra.
Qed.

Lemma f_bijective_witness :
  valid p_unit /\ exists y, f p_unit [y] = [3] /\ forall y', f p_unit [y'] = [3] -> y' = y.
Proof.
  assert (Hv : valid p_unit) by (split; simpl; [lra | repeat constructor; simpl; lra]).
  split; [exact Hv | exact (f_bijective p_unit 3 Hv)].
Defined.

(** With every shift [c_i = 0], [f] is odd: [f(-y) = -f(y)] entrywise. *)
Theorem f_odd (p : tanh_params) (y : list R) :
  Forall (fun t => tc t = 0) (psi p) -> f p (map Ropp y) = map Ropp (f p y).
Proof.
  intros Hc. unfold f. rewrite !map_map. apply map_ext. intros v.
  rewrite !f_entry_fold, (fold_add_shift _ _ (d p * - v)), (fold_add_shift _ _ (d p * v)).
  assert (H : forall acc1 acc2, acc1 = - acc2 ->
    fold_left (fun a t => a + ta t * tanh (tb t * (- v + tc t))) (psi p) acc1 =
    - fold_left (fun a t => a + ta t * tanh (tb t * (v + tc t))) (psi p) acc2).
  { induction Hc as [| t ts Ht _ IH]; intros acc1 acc2 Hacc; simpl; [exact Hacc |].
    apply IH. rewrite Hacc, Ht, !Rplus_0_r.
    replace (tb t * - v) with (- (tb t * v)) by ring. rewrite tanh_opp. ring. }
  rewrite (H 0 0) by ring. ring.
Qed.

Lemma f_odd_witness :
  Forall (fun t => tc t = 0) (psi p_unit) /\ f p_unit (map Ropp [2]) = map Ropp (f p_unit [2]).
Proof.
  assert (Hc : Forall (fun t => tc t = 0) (psi p_unit)) by (repeat constructor).
  split; [exact Hc | exact (f_odd p_unit [2] Hc)].
Defined.

(** For a valid parameter set every entry of [fgrad_y] lies between [d] and
    [d + sum_i a_i b_i]. *)
Theorem fgrad_y_bounds (p : tanh_params) (y : list R) :
  valid p -> Forall (fun g => d p <= g <= d p + sum_ab p) (fgrad_y p y).
Proof.
  intros Hv. apply Forall_forall. intros g Hg.
  pose proof (In_nth _ _ 0 Hg) as [n [Hn <-]].
  rewrite fgrad_y_length in Hn. rewrite fgrad_y_nth by exact Hn. split.
  - unfold jacobian_entry. pose proof Hv as [_ Hts].
    assert (0 <= sum_terms (psi p) (map (fun t => 1 - tanh (tb t * (nth n y 0 + tc t)) ^ 2) (psi p))).
    { apply sum_terms_nonneg; [exact Hts |]. apply Forall_forall. intros x Hx.
      apply in_map_iff in Hx as [t [<- _]]. left. apply D_entry_pos. }
    lra.
  - apply jacobian_entry_le. exact Hv.
Qed.

Lemma fgrad_y_bounds_witness :
  valid p_unit /\ Forall (fun g => d p_unit <= g <= d p_unit + sum_ab p_unit) (fgrad_y p_unit [0; 1]).
Proof.
  assert (Hv : valid p_unit) by (split; simpl; [lra | repeat constructor; simpl; lra]).
  split; [exact Hv | exact (fgrad_y_bounds p_unit [0; 1] Hv)].
Defined.

(** ** Edge and error behaviour *)

(** [y op= v] succeeds exactly when [v] has the length of [y] or length 1. *)
Lemma inplace_cases (g : R -> R -> R) (y v : list R) :
  inplace g y v =
    if Nat.eqb (length y) (length v) then inr (zip_with g y v)
    else if Nat.eqb (length v) 1 then inr (map (fun x => g x (hd 0 v)) y)
    else inl ValueError.
Proof.
  assert (Hzl : forall u w : list R, length (zip_with g u w) = Nat.min (length u) (length w)).
  { induction u as [| a u IH]; intros [| b w]; simpl; auto. }
  unfold inplace, bcast.
  destruct (Nat.eqb_spec (length y) (length v)) as [E | E].
  - rewrite Hzl, E, Nat.min_id, Nat.eqb_refl. reflexivity.
  - destruct (Nat.eqb_spec (length y) 1) as [E1 | E1].
    + rewrite length_map. destruct (Nat.eqb_spec (length v) (length y)); [lia |].
      destruct (Nat.eqb_spec (length v) 1); [lia | reflexivity].
    + destruct (Nat.eqb_spec (length v) 1); [| reflexivity].
      rewrite length_map, Nat.eqb_refl. reflexivity.
Qed.

Lemma sum_abs_zeros (u : list R) :
  (forall n, (n < length u)%nat -> nth n u 0 = 0) -> sum_abs u = 0.
Proof.
  unfold sum_abs. induction u as [| a u IH]; intros H; simpl; [reflexivity |].
  rewrite fold_Rplus_acc, IH.
  - assert (a = 0) as -> by (apply (H 0%nat); simpl; lia). rewrite Rabs_R0. ring.
  - intros n Hn. apply (H (S n)). simpl. lia.
Qed.

Lemma length_replace_nth {A : Type} (i : nat) (x : A) (l : list A) :
  length (replace_nth i x l) = length l.
Proof. revert i. induction l as [| a l IH]; intros [| i]; simpl; auto. Qed.

Lemma nth_replace_nth {A : Type} (i : nat) (x dflt : A) (l : list A) :
  (i < length l)%nat -> nth i (replace_nth i x l) dflt = x.
Proof.
  revert i. induction l as [| a l IH]; intros [| i] Hi; simpl in *; try lia; auto.
  apply IH. lia.
Qed.

Lemma init_guess_heap1_3 : init_guess p_edge (read (heap1 [3]) 0%nat) = inr [1].
Proof.
  unfold init_guess, read, heap1. cbn.
  destruct (Rlt_dec 0 3); [| lra]. destruct (Rle_dec 3 0); [lra |].
  repeat f_equal. ring.
Qed.

(** [init_guess] raises only [ValueError], and exactly when a given
    [initial_y] has neither the length of [z] nor length 1; otherwise the
    guess has the length of [z] and entry [n] is the sign of [z_n]
    ([+1] or [-1]) times the hint for row [n] ([1] without a hint). *)
Theorem init_guess_shape (p : tanh_params) (zc : list R) :
  (forall e, init_guess p zc = inl e -> e = ValueError) /\
  ((exists e, init_guess p zc = inl e) <->
   exists iy, initial_y p = Some iy /\ length iy <> length zc /\ length iy <> 1%nat) /\
  (forall y0, init_guess p zc = inr y0 ->
   length y0 = length zc /\
   forall n, (n < length zc)%nat ->
     nth n y0 0 = (if Rlt_dec 0 (nth n zc 0) then 1 else -1) *
       match initial_y p with
       | None => 1
       | Some iy => if Nat.eqb (length iy) 1 then hd 0 iy else nth n iy 0
       end).
Proof.
  set (sg := fun zi : R => (if Rlt_dec 0 zi then 1 else 0) - (if Rle_dec zi 0 then 1 else 0)).
  assert (Hsg : forall zi, sg zi = if Rlt_dec 0 zi then 1 else -1).
  { intros zi. unfold sg. destruct (Rlt_dec 0 zi), (Rle_dec zi 0); lra. }
  assert (Hn : forall n, (n < length zc)%nat ->
            nth n (map sg zc) 0 = if Rlt_dec 0 (nth n zc 0) then 1 else -1).
  { intros n Hn. rewrite (nth_map_lt sg zc n 0 0 Hn). apply Hsg. }
  assert (Hzn : forall (u w : list R) n, nth n (zip_with Rmult u w) 0 =
            if Nat.ltb n (Nat.min (length u) (length w)) then nth n u 0 * nth n w 0 else 0).
  { induction u as [| a u IH]; intros [| b w] [| n]; simpl; auto. }
  assert (Hzl : forall u w : list R, length (zip_with Rmult u w) = Nat.min (length u) (length w)).
  { induction u as [| a u IH]; intros [| b w]; simpl; auto. }
  unfold init_guess. fold sg.
  destruct (initial_y p) as [iy |].
  - rewrite inplace_cases, length_map.
    destruct (Nat.eqb_spec (length zc) (length iy)) as [E | E].
    + split; [discriminate |]. split.
      { split; [intros [e He]; discriminate | intros (iy' & Hiy & Hl & _); injection Hiy as <-; lia]. }
      intros y0 Hy0. injection Hy0 as <-. rewrite Hzl, length_map, <- E, Nat.min_id.
      split; [reflexivity |]. intros n Hnl.
      rewrite Hzn, length_map, <- E, Nat.min_id.
      destruct (Nat.ltb_spec n (length zc)); [| lia]. rewrite Hn by exact Hnl.
      destruct (Nat.eqb_spec (length zc) 1) as [E1 |]; [| reflexivity]. rewrite E in E1.
      destruct iy as [| x [| x' iy]]; simpl in *; try lia. destruct n; [reflexivity | lia].
    + destruct (Nat.eqb_spec (length iy) 1) as [E1 | E1].
      * split; [discriminate |]. split.
        { split; [intros [e He]; discriminate | intros (iy' & Hiy & _ & Hl); injection Hiy as <-; lia]. }
        intros y0 Hy0. injection Hy0 as <-. rewrite !length_map.
        split; [reflexivity |]. intros n Hnl.
        rewrite (nth_map_lt (fun x => x * hd 0 iy) (map sg zc) n 0 0) by (rewrite length_map; exact Hnl).
        rewrite Hn by exact Hnl. reflexivity.
      * split; [intros e He; injection He as <-; reflexivity |]. split.
        { split; [intros _; exists iy; auto | intros _; exists ValueError; reflexivity]. }
        intros y0 Hy0. discriminate.
  - split; [discriminate |]. split.
    { split; [intros [e He]; discriminate | intros (iy & Hiy & _); discriminate]. }
    intros y0 Hy0. injection Hy0 as <-. rewrite length_map.
    split; [reflexivity |]. intros n Hnl. rewrite Hn by exact Hnl. ring.
Qed.

(** With [max_iterations <= 0] and no [y] given, [f_inv] runs exactly one
    Newton pass from the initial guess and prints nothing. *)
Theorem f_inv_single_pass (p : tanh_params) (h : heap) (zl : loc) (maxit : Z) (y0 : list R) :
  (maxit <= 0)%Z -> init_guess p (read h zl) = inr y0 ->
  exists st, f_inv p h zl maxit None = Some (inr (st_heap st, next_loc h, [])) /\
    st_it st = 1%Z /\
    nr_traj p (read h zl) y0 1 = inr (read (st_heap st) (next_loc h), st_update st).
Proof.
  intros Hm Hg.
  destruct (run_none p h zl maxit y0 Hg) as (k & st & Hrun & Hinv & Hk & _ & _).
  assert (H0 : Z.to_nat maxit = 0%nat) by (destruct maxit; [reflexivity | lia | reflexivity]).
  rewrite H0 in Hk. simpl in Hk. assert (k = 1%nat) as -> by lia.
  destruct Hinv as (Hit & Htr & _).
  exists st. split; [| split; [exact Hit | exact Htr]].
  unfold f_inv. rewrite Hrun. unfold final_log. rewrite Hit.
  replace (Z.eqb (Z.of_nat 1) maxit) with false by (symmetry; apply Z.eqb_neq; simpl; lia).
  reflexivity.
Qed.

Lemma f_inv_single_pass_witness :
  (0 <= 0)%Z /\ init_guess p_edge (read (heap1 [3]) 0%nat) = inr [1] /\
  exists st, f_inv p_edge (heap1 [3]) 0%nat 0%Z None = Some (inr (st_heap st, next_loc (heap1 [3]), [])) /\
    st_it st = 1%Z /\
    nr_traj p_edge (read (heap1 [3]) 0%nat) [1] 1 = inr (read (st_heap st) (next_loc (heap1 [3])), st_update st).
Proof.
  split; [lia |]. split; [exact init_guess_heap1_3 |].
  apply (f_inv_single_pass p_edge (heap1 [3]) 0%nat 0%Z [1]); [lia | exact init_guess_heap1_3].
Defined.

(** Started at an exact preimage [y] of [z] (valid parameters), [f_inv]
    stops after one pass and returns [y] unchanged: the update is zero. *)
Theorem f_inv_fixed_point (p : tanh_params) (h : heap) (zl yl : loc) (maxit : Z) :
  valid p -> length (read h yl) = length (read h zl) -> f p (read h yl) = read h zl ->
  exists st, f_inv p h zl maxit (Some yl) = Some (inr (st_heap st, yl, final_log maxit st)) /\
    st_it st = 1%Z /\ read (st_heap st) yl = read h yl.
Proof.
  intros Hv Hlen Hf.
  destruct (run_some p h zl yl maxit Hlen) as (k & st & Hrun & Hinv & Hk & _ & Hcond).
  destruct (nr_step p (read h zl) (read h yl)) as [e | [y' u]] eqn:Hs.
  { rewrite nr_step_ok in Hs by exact Hlen. discriminate. }
  pose proof (fun n => nr_step_entry p (read h zl) (read h yl) y' u n Hlen Hs) as He.
  assert (Hu : forall n, (n < length u)%nat -> nth n u 0 = 0).
  { intros n Hn. destruct (He n) as (_ & Hlu & He'). rewrite Hlu in Hn.
    destruct (He' Hn) as [-> _].
    rewrite <- Hf, f_nth by lia. unfold Rdiv. ring. }
  assert (Hy : y' = read h yl).
  { destruct (He 0%nat) as (Hly & Hlu & _). apply nth_ext with 0 0; [lia |].
    intros n Hn. destruct (He n) as (_ & _ & He'). destruct (He' ltac:(lia)) as [_ ->].
    rewrite Hu by lia. ring. }
  assert (Htr1 : nr_traj p (read h zl) (read h yl) 1 = inr (y', UArr u)).
  { cbn [nr_traj fst]. rewrite Hs. reflexivity. }
  assert (Hcc : continue_cond maxit 1 (UArr u) = false).
  { unfold continue_cond, upd_gt_tol. rewrite (sum_abs_zeros u Hu).
    destruct (Rlt_dec tol 0) as [Hlt |]; [pose proof tol_pos; lra | reflexivity]. }
  pose proof (first_stop p _ _ maxit k y' (UArr u) Hcond Htr1 Hcc) as Hk1.
  assert (k = 1%nat) as -> by lia.
  destruct Hinv as (Hit & Htr & _).
  rewrite Htr1 in Htr. injection Htr as Hy' _.
  exists st. split; [| split; [exact Hit | rewrite <- Hy', Hy; reflexivity]].
  unfold f_inv. rewrite Hrun. reflexivity.
Qed.

Lemma f_inv_fixed_point_witness :
  valid p_edge /\
  length (read (heap2 (f p_edge [1]) [1]) 1%nat) = length (read (heap2 (f p_edge [1]) [1]) 0%nat) /\
  f p_edge (read (heap2 (f p_edge [1]) [1]) 1%nat) = read (heap2 (f p_edge [1]) [1]) 0%nat /\
  exists st, f_inv p_edge (heap2 (f p_edge [1]) [1]) 0%nat 5%Z (Some 1%nat) =
               Some (inr (st_heap st, 1%nat, final_log 5%Z st)) /\
    st_it st = 1%Z /\ read (st_heap st) 1%nat = read (heap2 (f p_edge [1]) [1]) 1%nat.
Proof.
  assert (Hv : valid p_edge) by (split; simpl; [lra | repeat constructor; simpl; lra]).
  split; [exact Hv |]. split; [reflexivity |]. split; [reflexivity |].
  exact (f_inv_fixed_point p_edge (heap2 (f p_edge [1]) [1]) 0%nat 1%nat 5%Z Hv eq_refl eq_refl).
Defined.

(** A caller's [y] whose length differs from [z]'s, for a [z] of length
    other than 1, makes [f_inv] raise [ValueError] in the first pass. *)
Theorem f_inv_shape_error (p : tanh_params) (h : heap) (zl yl : loc) (maxit : Z) :
  length (read h yl) <> length (read h zl) -> length (read h zl) <> 1%nat ->
  f_inv p h zl maxit (Some yl) = Some (inl ValueError).
Proof.
  intros HM HN.
  assert (Hs : nr_step p (read h zl) (read h yl) = inl ValueError).
  { unfold nr_step, bcast. rewrite f_length.
    destruct (Nat.eqb_spec (length (read h yl)) (length (read h zl))) as [E | _]; [contradiction |].
    destruct (Nat.eqb_spec (length (read h yl)) 1) as [E1 | E1].
    - rewrite length_map, fgrad_y_length, E1.
      destruct (Nat.eqb_spec (length (read h zl)) 1); [contradiction |].
      rewrite Nat.eqb_refl, inplace_cases, !length_map, E1.
      destruct (Nat.eqb_spec 1 (length (read h zl))); [lia |].
      destruct (Nat.eqb_spec (length (read h zl)) 1); [contradiction | reflexivity].
    - destruct (Nat.eqb_spec (length (read h zl)) 1); [contradiction | reflexivity]. }
  unfold f_inv, f_inv_run.
  replace (Z.to_nat maxit + 2)%nat with (S (S (Z.to_nat maxit))) by lia.
  cbn [nr_loop loop_cond continue_cond st_it st_update]. simpl Z.eqb. cbn [orb].
  unfold nr_body. cbn [st_heap]. rewrite Hs. reflexivity.
Qed.

Lemma f_inv_shape_error_witness :
  length (read (heap2 [1; 2; 3] [0; 0]) 1%nat) <> length (read (heap2 [1; 2; 3] [0; 0]) 0%nat) /\
  length (read (heap2 [1; 2; 3] [0; 0]) 0%nat) <> 1%nat /\
  f_inv p_unit (heap2 [1; 2; 3] [0; 0]) 0%nat 10%Z (Some 1%nat) = Some (inl ValueError).
Proof.
  assert (H1 : length (read (heap2 [1; 2; 3] [0; 0]) 1%nat) <> length (read (heap2 [1; 2; 3] [0; 0]) 0%nat))
    by (simpl; lia).
  assert (H2 : length (read (heap2 [1; 2; 3] [0; 0]) 0%nat) <> 1%nat) by (simpl; lia).
  split; [exact H1 |]. split; [exact H2 |].
  exact (f_inv_shape_error p_unit (heap2 [1; 2; 3] [0; 0]) 0%nat 1%nat 10%Z H1 H2).
Defined.

(** With at least one term, [update_grads] raises [ValueError] when [Kiy]
    and [Y] have different lengths, neither of them 1 (numpy cannot
    broadcast [Kiy[:, None, None, None]] against [grad_psi]). *)
Theorem update_grads_kiy_mismatch (w : warp_state) (Y Kiy : list R) :
  psi (wparams w) <> [] -> length Kiy <> length Y -> length Kiy <> 1%nat -> length Y <> 1%nat ->
  update_grads w Y Kiy = inl ValueError.
Proof.
  intros Hp HK HK1 HY1.
  destruct (fgrad_y_psi_chain_ok (wparams w) Y Hp) as (G & C & Hout & _ & [HC _]).
  assert (Hk : kiy_scale Kiy C = inl ValueError).
  { unfold kiy_scale. rewrite HC.
    destruct (Nat.eqb_spec (length Kiy) (length Y)); [contradiction |].
    destruct (Nat.eqb_spec (length Kiy) 1); [contradiction |].
    destruct (Nat.eqb_spec (length Y) 1); [contradiction | reflexivity]. }
  unfold update_grads. rewrite Hout. cbv zeta. rewrite Hk. reflexivity.
Qed.

Lemma update_grads_kiy_mismatch_witness :
  psi (wparams (mk_warp p_unit [] 0)) <> [] /\ length [1; 2] <> length [0; 1; 2] /\
  length [1; 2] <> 1%nat /\ length [0; 1; 2] <> 1%nat /\
  update_grads (mk_warp p_unit [] 0) [0; 1; 2] [1; 2] = inl ValueError.
Proof.
  assert (H1 : psi (wparams (mk_warp p_unit [] 0)) <> []) by discriminate.
  assert (H2 : length [1; 2] <> length [0; 1; 2]) by (simpl; lia).
  assert (H3 : length [1; 2] <> 1%nat) by (simpl; lia).
  assert (H4 : length [0; 1; 2] <> 1%nat) by (simpl; lia).
  split; [exact H1 |]. split; [exact H2 |]. split; [exact H3 |]. split; [exact H4 |].
  exact (update_grads_kiy_mismatch (mk_warp p_unit [] 0) [0; 1; 2] [1; 2] H1 H2 H3 H4).
Defined.

(** [LogFunction]: [f(f_inv(z)) = z] for every column [z]. *)
Theorem log_f_f_inv (z : list R) : log_f (log_f_inv z) = z.
Proof.
  unfold log_f, log_f_inv. rewrite map_map.
  rewrite <- (map_id z) at 2. apply map_ext. exact ln_exp.
Qed.

(** [LogFunction]: [f_inv(f(y)) = y] for a column of positive values. *)
Theorem log_f_inv_f (y : list R) :
  Forall (fun x => 0 < x) y -> log_f_inv (log_f y) = y.
Proof.
  intros Hy. unfold log_f, log_f_inv. rewrite map_map.
  rewrite <- (map_id y) at 2. apply map_ext_in. intros x Hx.
  apply exp_ln. rewrite Forall_forall in Hy. exact (Hy x Hx).
Qed.

Lemma log_f_inv_f_witness :
  Forall (fun x => 0 < x) [1; 2] /\ log_f_inv (log_f [1; 2]) = [1; 2].
Proof.
  assert (H : Forall (fun x => 0 < x) [1; 2]) by (repeat constructor; lra).
  split; [exact H | exact (log_f_inv_f [1; 2] H)].
Defined.

(** [LogFunction]: at a positive entry [y_n], entry [n] of [fgrad_y(y)] is
    the derivative of entry [n] of [f] in [y_n]. *)
Theorem log_fgrad_y_derivative (y : list R) (n : nat) :
  (n < length y)%nat -> 0 < nth n y 0 ->
  derivable_pt_lim (fun v => nth n (log_f (replace_nth n v y)) 0) (nth n y 0)
    (nth n (log_fgrad_y y) 0).
Proof.
  intros Hn Hpos.
  apply (D_ext ln).
  { intros v. unfold log_f.
    rewrite (nth_map_lt ln (replace_nth n v y) n 0 0) by (rewrite length_replace_nth; exact Hn).
    rewrite nth_replace_nth by exact Hn. reflexivity. }
  unfold log_fgrad_y. rewrite (nth_map_lt (fun x => 1 / x) y n 0 0 Hn).
  eapply D_val; [| exact (derivable_pt_lim_ln _ Hpos)]. cbv beta. field. lra.
Qed.

Lemma log_fgrad_y_derivative_witness :
  (1 < length [1; 2])%nat /\ 0 < nth 1 [1; 2] 0 /\
  derivable_pt_lim (fun v => nth 1 (log_f (replace_nth 1 v [1; 2])) 0) (nth 1 [1; 2] 0)
    (nth 1 (log_fgrad_y [1; 2]) 0).
Proof.
  assert (H1 : (1 < length [1; 2])%nat) by (simpl; lia).
  assert (H2 : 0 < nth 1 [1; 2] 0) by (simpl; lra).
  split; [exact H1 |]. split; [exact H2 |].
  exact (log_fgrad_y_derivative [1; 2] 1 H1 H2).
Defined.

(** ** Parameter names *)

Lemma uint_str_inj (u u' : Decimal.uint) : uint_str u = uint_str u' -> u = u'.
Proof.
  revert u'. induction u; intros [] H; simpl in H; inversion H; try reflexivity;
    f_equal; apply IHu; assumption.
Qed.

Lemma fmt_i_inj (q q' : nat) : fmt_i q = fmt_i q' -> q = q'.
Proof.
  unfold fmt_i. intros H. apply uint_str_inj in H.
  rewrite <- (DecimalNat.Unsigned.of_to q), <- (DecimalNat.Unsigned.of_to q'), H.
  reflexivity.
Qed.

Lemma param_name_inj (k q k' q' : nat) :
  (k < 3)%nat -> (k' < 3)%nat -> param_name k q = param_name k' q' -> k = k' /\ q = q'.
Proof.
  intros Hk Hk' H. unfold param_name in H.
  destruct k as [| [| [| k]]]; try lia; destruct k' as [| [| [| k']]]; try lia;
    simpl in H; inversion H as [Hq]; split; try reflexivity; apply fmt_i_inj;
    unfold fmt_i in *; assumption.
Qed.

Lemma param_name_not_last (k q : nat) : param_name k q <> "warp_tanh"%string.
Proof. unfold param_name. simpl. discriminate. Qed.

Lemma fold_app_acc {A : Type} (ls : list (list A)) (acc : list A) :
  fold_left (@app A) ls acc = acc ++ concat ls.
Proof.
  revert acc. induction ls as [| l ls IH]; intros acc; simpl.
  - rewrite app_nil_r. reflexivity.
  - rewrite IH, app_assoc. reflexivity.
Qed.

Lemma names_body_length (m : nat) :
  length (concat (map (fun q => map (fun n => param_name n q) (seq 0 3)) (seq 0 m))) = (3 * m)%nat.
Proof.
  induction m as [| m IH]; [reflexivity |].
  rewrite (seq_S m 0), map_app, concat_app, length_app, IH. simpl. lia.
Qed.

Lemma names_body_nth (m q k : nat) :
  (q < m)%nat -> (k < 3)%nat ->
  nth (3 * q + k) (concat (map (fun q => map (fun n => param_name n q) (seq 0 3)) (seq 0 m)))
    String.EmptyString = param_name k q.
Proof.
  induction m as [| m IH]; intros Hq Hk; [lia |].
  rewrite (seq_S m 0), map_app, concat_app.
  destruct (Nat.eq_dec q m) as [-> | Hne].
  - rewrite app_nth2 by (rewrite names_body_length; lia).
    rewrite names_body_length. replace (3 * m + k - 3 * m)%nat with k by lia.
    destruct k as [| [| [| k]]]; try lia; reflexivity.
  - rewrite app_nth1 by (rewrite names_body_length; lia). apply IH; lia.
Qed.

(** [_get_param_names] lists [num_parameters] distinct names: entry
    [3 q + k] is ['warp_tanh_<a|b|c>_t<q>'], the name of [psi[q, k]] in the
    row-major order of [psi], and the last one is ['warp_tanh'], for [d]. *)
Theorem get_param_names_layout (n_terms : Z) :
  (0 <= n_terms)%Z ->
  Z.of_nat (length (get_param_names n_terms)) = num_parameters n_terms /\
  (forall q k, (q < Z.to_nat n_terms)%nat -> (k < 3)%nat ->
     nth (3 * q + k) (get_param_names n_terms) String.EmptyString = param_name k q) /\
  nth (3 * Z.to_nat n_terms) (get_param_names n_terms) String.EmptyString = "warp_tanh"%string /\
  NoDup (get_param_names n_terms).
Proof.
  intros Hn. unfold get_param_names. rewrite fold_app_acc. cbn [app].
  set (m := Z.to_nat n_terms).
  set (body := concat (map (fun q => map (fun n => param_name n q) (seq 0 3)) (seq 0 m))).
  assert (Hlen : length body = (3 * m)%nat) by apply names_body_length.
  assert (Hbody : forall i, (i < 3 * m)%nat ->
            nth i (body ++ ["warp_tanh"%string]) String.EmptyString = param_name (i mod 3) (i / 3)).
  { intros i Hi. rewrite app_nth1 by lia.
    rewrite (Nat.div_mod_eq i 3) at 1. apply names_body_nth.
    - apply Nat.Div0.div_lt_upper_bound. lia.
    - apply Nat.mod_upper_bound. lia. }
  assert (Hlast : nth (3 * m) (body ++ ["warp_tanh"%string]) String.EmptyString = "warp_tanh"%string).
  { rewrite app_nth2 by lia. rewrite Hlen, Nat.sub_diag. reflexivity. }
  split; [| split; [| split]].
  - rewrite length_app, Hlen. unfold num_parameters, m. cbn [length].
    rewrite Nat2Z.inj_add, Nat2Z.inj_mul, Z2Nat.id by exact Hn. reflexivity.
  - intros q k Hq Hk. rewrite app_nth1 by lia. apply names_body_nth; assumption.
  - exact Hlast.
  - apply (NoDup_nth (body ++ ["warp_tanh"%string]) String.EmptyString).
    rewrite length_app, Hlen. simpl. intros i j Hi Hj Hij.
    destruct (Nat.eq_dec i (3 * m)) as [-> | Hi'], (Nat.eq_dec j (3 * m)) as [-> | Hj'];
      [reflexivity | | |].
    + rewrite Hlast, Hbody in Hij by lia. symmetry in Hij.
      destruct (param_name_not_last _ _ Hij).
    + rewrite Hlast, Hbody in Hij by lia. destruct (param_name_not_last _ _ Hij).
    + rewrite !Hbody in Hij by lia.
      destruct (param_name_inj _ _ _ _ ltac:(apply Nat.mod_upper_bound; lia)
                  ltac:(apply Nat.mod_upper_bound; lia) Hij) as [Hm Hd].
      rewrite (Nat.div_mod_eq i 3), (Nat.div_mod_eq j 3), Hm, Hd. reflexivity.
Qed.

Lemma get_param_names_layout_witness :
  (0 <= 2)%Z /\
  Z.of_nat (length (get_param_names 2)) = num_parameters 2 /\
  (forall q k, (q < Z.to_nat 2)%nat -> (k < 3)%nat ->
     nth (3 * q + k) (get_param_names 2) String.EmptyString = param_name k q) /\
  nth (3 * Z.to_nat 2) (get_param_names 2) String.EmptyString = "warp_tanh"%string /\
  NoDup (get_param_names 2).
Proof. split; [lia | apply (get_param_names_layout 2); lia]. Defined.

(** ** Restarting [f_inv] *)




(** ** Arrays touched by [f_inv] *)



(** ** [f_inv] of [p_unit] on [z = 0] *)

Lemma tanh_le_id (x : R) : 0 <= x -> tanh x <= x.
Proof.
  intros Hx. destruct (Req_dec x 0) as [-> | Hne]; [rewrite tanh_0; lra |].
  destruct (MVT_cor2 tanh (fun c => sech c ^ 2) 0 x ltac:(lra) (fun c _ => D_tanh c))
    as [c [Hc _]].
  rewrite tanh_0 in Hc. rewrite <- one_minus_tanh2 in Hc.
  assert (0 <= tanh c ^ 2) by (apply pow2_ge_0). nra.
Qed.

Lemma tanh_1_le : tanh 1 <= 4 / 5.
Proof.
  rewrite tanh_alt. replace (2 * 1) with (1 + 1) by ring. rewrite exp_plus.
  pose proof exp_le_3 as H3. pose proof (exp_pos 1) as H0.
  set (E := exp 1 * exp 1).
  assert (HE : E <= 9) by (unfold E; nra).
  assert (HE0 : 0 < E) by (unfold E; nra).
  replace (1 - 2 / (E + 1)) with (4 / 5 - (9 - E) / (5 * (E + 1))) by (field; lra).
  assert (0 <= (9 - E) / (5 * (E + 1))); [| lra].
  unfold Rdiv. apply Rmult_le_pos; [lra |]. left. apply Rinv_0_lt_compat. lra.
Qed.

(** One Newton step of [y + tanh y = 0], for [0 <= t = tanh y <= y] and
    [t <= 4/5], at least halves [|y|]. *)
Lemma newton_half_alg (y t : R) :
  0 <= t <= y -> t <= 4 / 5 ->
  Rabs (y - (1 * y + 1 * t - 0) / (1 + 1 * 1 * (1 - t ^ 2))) <= Rabs y / 2.
Proof.
  intros [Ht0 Hty] Ht45.
  rewrite (Rabs_pos_eq y) by lra.
  set (D := 1 + 1 * 1 * (1 - t ^ 2)).
  assert (Ht2 : t ^ 2 <= 16 / 25) by (simpl; nra).
  assert (HD : 34 / 25 <= D) by (unfold D; lra).
  set (N := y - (1 * y + 1 * t - 0) / D).
  assert (HN : N * D = y * (1 - t ^ 2) - t) by (unfold N, D in *; field; lra).
  apply Rabs_le. split.
  - assert (- (y / 2) * D <= N * D); [| nra].
    rewrite HN. unfold D. nra.
  - assert (N * D <= y / 2 * D); [| nra].
    rewrite HN. unfold D. nra.
Qed.

Lemma unit_newton_half (y : R) :
  Rabs y <= 1 ->
  Rabs (y - (f_entry p_unit y - 0) / jacobian_entry p_unit y) <= Rabs y / 2.
Proof.
  intros Hy. unfold p_unit. rewrite f_entry_one, jacobian_entry_one. cbn [ta tb tc].
  replace (1 * (y + 0)) with y by ring.
  destruct (Rle_or_lt 0 y) as [Hpos | Hneg].
  - apply newton_half_alg.
    + split; [rewrite <- tanh_0; apply tanh_le; lra | apply tanh_le_id; lra].
    + pose proof (tanh_le y 1 ltac:(apply abs_le_split in Hy; lra)). pose proof tanh_1_le. lra.
  - pose proof (abs_le_split _ _ Hy) as Hy'.
    pose proof (newton_half_alg (- y) (- tanh y)) as H.
    rewrite <- tanh_opp in H. rewrite Rabs_Ropp in H.
    assert (Hb : -1 < tanh y < 1) by apply tanh_bounds.
    replace (y - (1 * y + 1 * tanh y - 0) / (1 + 1 * 1 * (1 - tanh y ^ 2)))
      with (- (- y - (1 * - y + 1 * tanh (- y) - 0) / (1 + 1 * 1 * (1 - tanh (- y) ^ 2)))).
    + rewrite Rabs_Ropp. apply H.
      * split; [rewrite <- tanh_0; apply tanh_le; lra | apply tanh_le_id; lra].
      * pose proof (tanh_le (- y) 1 ltac:(lra)). pose proof tanh_1_le. lra.
    + rewrite tanh_opp. field. nra.
Qed.

Lemma unit_traj (m : nat) :
  nr_traj p_unit [0] [-1] (S m) = inr ([unit_iter (S m)], UArr [unit_iter m - unit_iter (S m)]).
Proof.
  induction m as [| m IH].
  - rewrite traj1_single. cbn [unit_iter].
    set (q := (f_entry p_unit (-1) - 0) / jacobian_entry p_unit (-1)).
    replace (-1 - (-1 - q)) with q by ring. reflexivity.
  - change (nr_traj p_unit [0] [-1] (S (S m))) with
      (let* prev := nr_traj p_unit [0] [-1] (S m) in
       let* r := nr_step p_unit [0] (fst prev) in inr (fst r, UArr (snd r))).
    rewrite IH. cbn [fst]. rewrite nr_step_single. cbn [fst snd].
    change (unit_iter (S (S m))) with
      (unit_iter (S m) - (f_entry p_unit (unit_iter (S m)) - 0) / jacobian_entry p_unit (unit_iter (S m))).
    set (q := (f_entry p_unit (unit_iter (S m)) - 0) / jacobian_entry p_unit (unit_iter (S m))).
    replace (unit_iter (S m) - (unit_iter (S m) - q)) with q by ring. reflexivity.
Qed.

Lemma unit_traj_inv (m : nat) (y : list R) (u : upd_val) :
  nr_traj p_unit [0] [-1] (S m) = inr (y, u) ->
  y = [unit_iter (S m)] /\ u = UArr [unit_iter m - unit_iter (S m)].
Proof. rewrite unit_traj. intros H. injection H as <- <-. split; reflexivity. Qed.

Lemma unit_iter_bound (m : nat) : Rabs (unit_iter m) * 2 ^ m <= 1.
Proof.
  induction m as [| m IH].
  - simpl. rewrite Rabs_left by lra. lra.
  - pose proof (pow_R1_Rle 2 m ltac:(lra)) as Hp.
    assert (Hle : Rabs (unit_iter m) <= 1) by (pose proof (Rabs_pos (unit_iter m)); nra).
    pose proof (unit_newton_half (unit_iter m) Hle) as Hh.
    change (unit_iter (S m)) with
      (unit_iter m - (f_entry p_unit (unit_iter m) - 0) / jacobian_entry p_unit (unit_iter m)).
    rewrite <- tech_pow_Rmult. nra.
Qed.

Lemma pow_2_35 : 2 ^ 35 = 34359738368.
Proof. simpl. ring. Qed.

(** C8 (amended): with one term [a = b = 1], [c = 0], [d = 1] and no hint,
    [f_inv] on [z = 0] starts from [y = -1] (since [z <= 0]), not from [0];
    its first Newton update has absolute value at least [1/2], above the
    tolerance, so it takes more than one iteration.  It still converges to
    [y ~ 0]: the loop stops by the tolerance rule (the sum of absolute
    updates is at most [1e-10]) after between 2 and 35 iterations, well
    before the cap of 100, and the returned [y] satisfies [|y| <= 1e-10]. *)
Theorem f_inv_unit_zero :
  init_guess p_unit [0] = inr [-1] /\
  (exists u, nr_traj p_unit [0] [-1] 1 = inr ([-1 - u], UArr [u]) /\ tol < 1 / 2 <= Rabs u) /\
  exists st y, f_inv_run p_unit (heap1 [0]) 0%nat 100%Z None = Some (inr (1%nat, st)) /\
    (2 <= st_it st <= 35)%Z /\ read (st_heap st) 1%nat = [y] /\ Rabs y <= tol /\
    exists u, st_update st = UArr u /\ sum_abs u <= tol.
Proof.
  destruct unit_run as [Hi [[u1 [Htr1 Hu1]] [st0 [Hrun0 Hit0]]]].
  split; [exact Hi |]. split; [exists u1; split; [exact Htr1 | rewrite tol_value; lra] |].
  assert (Hinit : init_guess p_unit (read (heap1 [0]) 0%nat) = inr [-1]) by exact Hi.
  destruct (run_none p_unit (heap1 [0]) 0%nat 100%Z [-1] Hinit)
    as [k [st [Hrun [Hinv [Hk [Hstop Hfirst]]]]]].
  rewrite read_heap1 in Hinv, Hfirst.
  rewrite Hrun in Hrun0. injection Hrun0 as <-.
  destruct Hinv as [Hit [Htr _]].
  pose proof tol_pos as Htol.
  (* the loop has stopped by pass 35 *)
  assert (Hk35 : (k <= 35)%nat).
  { destruct (Nat.le_gt_cases k 35) as [H | H]; [exact H | exfalso].
    destruct (Hfirst 35%nat H) as [y [u [Htr35 Hc]]].
    destruct (unit_traj_inv 34 y u Htr35) as [_ ->].
    assert (Hg : upd_gt_tol (UArr [unit_iter 34 - unit_iter 35]) = true).
    { revert Hc. unfold continue_cond.
      destruct (upd_gt_tol (UArr [unit_iter 34 - unit_iter 35])); [reflexivity |].
      intros Hc. discriminate Hc. }
    apply upd_gt_tol_single in Hg. clear Hc. rename Hg into Hc.
    pose proof (unit_iter_bound 34) as B34. pose proof (unit_iter_bound 35) as B35.
    rewrite pow_2_35 in B35.
    replace (2 ^ 34) with 17179869184 in B34 by (simpl; ring).
    pose proof (Rabs_triang (unit_iter 34) (- unit_iter 35)) as Ht.
    rewrite Rabs_Ropp in Ht. unfold Rminus in Hc. rewrite tol_value in Hc.
    clear -Hc B34 B35 Ht.
    generalize dependent (unit_iter 35). generalize dependent (unit_iter 34).
    intros. lra. }
  destruct k as [| j]; [lia |].
  destruct (unit_traj_inv j _ _ Htr) as [Hy Hu]. symmetry in Hy, Hu.
  assert (Hsum : sum_abs [unit_iter j - unit_iter (S j)] <= tol).
  { unfold loop_cond in Hstop. rewrite <- Hu, Hit in Hstop. unfold continue_cond in Hstop.
    apply Bool.orb_false_iff in Hstop as [_ Hstop].
    apply Bool.andb_false_iff in Hstop as [Hg | Hlt].
    - unfold upd_gt_tol in Hg. destruct (Rlt_dec tol _); [discriminate | lra].
    - apply Z.ltb_ge in Hlt. lia. }
  exists st, (unit_iter (S j)). split; [exact Hrun |]. split.
  { rewrite Hit in Hit0 |- *. lia. }
  split; [symmetry; exact Hy |]. split.
  - rewrite sum_abs_single in Hsum.
    assert (Hle : Rabs (unit_iter j) <= 1).
    { pose proof (unit_iter_bound j) as B. pose proof (pow_R1_Rle 2 j ltac:(lra)).
      pose proof (Rabs_pos (unit_iter j)). nra. }
    pose proof (unit_newton_half (unit_iter j) Hle) as Hh.
    change (unit_iter j - (f_entry p_unit (unit_iter j) - 0) / jacobian_entry p_unit (unit_iter j))
      with (unit_iter (S j)) in Hh.
    pose proof (Rabs_triang (unit_iter (S j)) (unit_iter j - unit_iter (S j))) as Ht.
    replace (unit_iter (S j) + (unit_iter j - unit_iter (S j))) with (unit_iter j) in Ht by ring.
    lra.
  - exists [unit_iter j - unit_iter (S j)]. split; [symmetry; exact Hu | exact Hsum].
Qed.
